(** * Supervisor: ingress registry and plugin manager

    A shallow embedding of [supervisor/ingress.py] (class [Ingress]) and of
    [supervisor/plugins/manager.py] (class [PluginManager]).

    Python dictionaries are finite maps ([gmap]); a method that mutates
    [self] is a function from the state before the call to a result and the
    state after it; a raised exception is a result of its own, which leaves
    the state as it was at the point of the raise. *)

From stdpp Require Import gmap strings list fin_maps.
From Stdlib Require Import ZArith.

Local Open Scope Z_scope.

(** ** Exceptions *)

(** The exception classes that the two modules name in an [except] clause,
    and the other built-in ones a collaborator raises.  Every value is an
    instance of Python's [Exception]; signals that only derive from
    [BaseException] (task cancellation, interpreter exit) are not part of
    the model. *)
Inductive exc_class : Type :=
  | Exception_      (* any subclass of Exception not listed below *)
  | OverflowError_
  | ValueError_
  | OSError_
  | HassioError_.   (* supervisor.exceptions.HassioError and its subclasses *)

Global Instance exc_class_eq_dec : EqDecision exc_class.
Proof. solve_decision. Defined.

Record exception : Type := mkExc { exc_cls : exc_class; exc_msg : string }.

Global Instance exception_eq_dec : EqDecision exception.
Proof. solve_decision. Defined.

(** [except handler:] catches an exception whose class is [handler] or one
    of its subclasses. *)
Definition issubclass (c handler : exc_class) : bool :=
  match handler with
  | Exception_ => true
  | _ => bool_decide (c = handler)
  end.

Definition isinstance (e : exception) (handler : exc_class) : bool :=
  issubclass (exc_cls e) handler.

(** Outcome of a call: a value, or a raised exception. *)
Inductive result (A : Type) : Type :=
  | Ok (a : A)
  | Raise (e : exception).
Arguments Ok {A} a.
Arguments Raise {A} e.

Definition is_ok {A} (r : result A) : bool :=
  match r with Ok _ => true | Raise _ => false end.

(** ** Collaborators of the ingress registry *)

(** [utils.dt] and the [datetime] values it returns.  [stamp] is the float
    of epoch seconds that the session table stores; [utc_from_timestamp]
    is the only operation of the interface that the module guards with a
    [try].  [dt + timedelta(minutes=15)] is a datetime unless it passes
    [datetime.max]: [plus_15_raises dt] tells that it does, in which case
    the addition raises an [OverflowError], and [plus_15_minutes dt] is
    the sum otherwise.  A reading of the clock is never that late, so the
    sum is taken directly where the module adds to [utcnow()]. *)
Class DateTimeApi : Type := {
  stamp : Type;
  datetime : Type;
  utc_from_timestamp : stamp -> result datetime;
  timestamp : datetime -> stamp;                 (* dt.timestamp() *)
  plus_15_minutes : datetime -> datetime;        (* dt + timedelta(minutes=15) *)
  plus_15_raises : datetime -> bool;             (* ... is past datetime.max *)
  dt_lt : datetime -> datetime -> bool;          (* dt1 < dt2 *)
}.

(** What [datetime + timedelta] raises when the sum is past [datetime.max]. *)
Definition date_overflow : exception :=
  mkExc OverflowError_ "date value out of range".

(** [const.IngressSessionDataDict] (the stored metadata record) and
    [const.IngressSessionData] (what [from_dict] builds from it).
    [dict_truthy] is Python's truth value of the stored record, which the
    walrus tests of the module consult. *)
Class SessionDataApi : Type := {
  IngressSessionDataDict : Type;
  IngressSessionData : Type;
  from_dict : IngressSessionDataDict -> IngressSessionData;
  to_dict : IngressSessionData -> IngressSessionDataDict;
  dict_truthy : IngressSessionDataDict -> bool;
}.

(** An installed add-on, as far as the ingress registry reads it. *)
Record Addon : Type := mkAddon {
  addon_slug : string;
  with_ingress : bool;
  ingress_token : option string;
}.

(** Truth value of [addon.ingress_token]: [None] and the empty string are
    false. *)
Definition token_truthy (t : option string) : option string :=
  match t with
  | Some tok => if bool_decide (tok = EmptyString) then None else Some tok
  | None => None
  end.

(** I/O that the registry performs and that the claims talk about. *)
Inductive io_event : Type :=
  | CheckPort (port : Z)   (* await check_port(self.sys_docker.network.gateway, port) *)
  | SaveData.              (* await self.save_data() *)

Global Instance io_event_eq_dec : EqDecision io_event.
Proof. solve_decision. Defined.

(** What the port allocation draws from outside: [entropy n] is the raw
    randomness behind the [n]-th call of [random.randint] (counted from 0),
    [check_port n port] the answer of the network probe for [port] once [n]
    draws have been made, so that the network may change between draws. *)
Record Oracle : Type := mkOracle {
  entropy : nat -> Z;
  check_port : nat -> Z -> bool;
}.

(** [random.randint(a, b)]: an integer of the closed range [a..b]. *)
Definition randint (a b raw : Z) : Z := a + raw mod (b - a + 1).

Definition PORT_MIN : Z := 62000.
Definition PORT_MAX : Z := 65500.

Section Ingress.
Context `{DT : DateTimeApi} `{SD : SessionDataApi}.

(** The instance state of [Ingress]: the token index [self.tokens] and the
    three tables of [self._data]; [io_log] records the I/O done so far,
    oldest first. *)
Record Ingress : Type := mkIngress {
  tokens : gmap string string;
  sessions : gmap string stamp;
  sessions_data : gmap string IngressSessionDataDict;
  ports : gmap string Z;
  io_log : list io_event;
}.

Definition set_tokens (t : gmap string string) (s : Ingress) : Ingress :=
  mkIngress t (sessions s) (sessions_data s) (ports s) (io_log s).
Definition set_sessions (ss : gmap string stamp) (s : Ingress) : Ingress :=
  mkIngress (tokens s) ss (sessions_data s) (ports s) (io_log s).
Definition set_sessions_data (sd : gmap string IngressSessionDataDict)
    (s : Ingress) : Ingress :=
  mkIngress (tokens s) (sessions s) sd (ports s) (io_log s).
Definition set_ports (p : gmap string Z) (s : Ingress) : Ingress :=
  mkIngress (tokens s) (sessions s) (sessions_data s) p (io_log s).
Definition emit (e : io_event) (s : Ingress) : Ingress :=
  mkIngress (tokens s) (sessions s) (sessions_data s) (ports s)
            (io_log s ++ [e]).

(** [get_session_data]: the walrus yields the record only when it is
    present and truthy. *)
Definition get_session_data (session_id : string) (s : Ingress)
    : option IngressSessionData :=
  match sessions_data s !! session_id with
  | Some data => if dict_truthy data then Some (from_dict data) else None
  | None => None
  end.

(** The [addons] property: installed add-ons with ingress. *)
Definition addons (installed : list Addon) : list Addon :=
  filter (fun a => with_ingress a = true) installed.

(** [_update_token_list] *)
Definition _update_token_list (installed : list Addon) (s : Ingress)
    : result unit * Ingress :=
  let tokens' :=
    foldl (fun (acc : gmap string string) addon =>
             match token_truthy (ingress_token addon) with
             | Some tok => <[tok := addon_slug addon]> acc
             | None => acc
             end) ∅ (addons installed) in
  (Ok tt, set_tokens tokens' s).

(** One turn of the loop of [_cleanup_sessions] on the entry
    [session -> valid], with the two fresh dictionaries as accumulator.
    An exception that is not an [OverflowError] leaves the loop. *)
Definition cleanup_step (now : datetime)
    (old_data : gmap string IngressSessionDataDict)
    (session : string) (valid : stamp)
    (acc : result (gmap string stamp * gmap string IngressSessionDataDict))
    : result (gmap string stamp * gmap string IngressSessionDataDict) :=
  match acc with
  | Raise e => Raise e
  | Ok (sessions', sessions_data') =>
      match utc_from_timestamp valid with
      | Raise e =>
          if isinstance e OverflowError_
          then Ok (sessions', sessions_data')            (* continue *)
          else Raise e
      | Ok valid_dt =>
          if dt_lt valid_dt now
          then Ok (sessions', sessions_data')            (* continue *)
          else
            let sessions'' := <[session := valid]> sessions' in
            match old_data !! session with
            | Some session_data =>
                if dict_truthy session_data
                then Ok (sessions'', <[session := session_data]> sessions_data')
                else Ok (sessions'', sessions_data')
            | None => Ok (sessions'', sessions_data')
            end
      end
  end.

(** [_cleanup_sessions]; [now] is the reading of [utcnow()] at its first
    line.  The loop visits the entries in the order in which the map
    enumerates them; the tables are written back only after the loop, so a
    raise inside the loop leaves them as they were, whichever entry it
    comes from. *)
Definition _cleanup_sessions (now : datetime) (s : Ingress)
    : result unit * Ingress :=
  match map_fold (cleanup_step now (sessions_data s)) (Ok (∅, ∅)) (sessions s) with
  | Raise e => (Raise e, s)
  | Ok (sessions', sessions_data') =>
      (Ok tt, set_sessions_data sessions_data' (set_sessions sessions' s))
  end.

(** [load] and [reload] *)
Definition load (now : datetime) (installed : list Addon) (s : Ingress)
    : result unit * Ingress :=
  match _update_token_list installed s with
  | (Raise e, s1) => (Raise e, s1)
  | (Ok _, s1) => _cleanup_sessions now s1
  end.

Definition reload (now : datetime) (installed : list Addon) (s : Ingress)
    : result unit * Ingress :=
  match _cleanup_sessions now s with
  | (Raise e, s1) => (Raise e, s1)
  | (Ok _, s1) => _update_token_list installed s1
  end.

(** [create_session]; [session] is the value of [secrets.token_hex(64)]. *)
Definition create_session (now : datetime) (session : string)
    (data : option IngressSessionData) (s : Ingress) : string * Ingress :=
  let valid := plus_15_minutes now in
  let s1 := set_sessions (<[session := timestamp valid]> (sessions s)) s in
  match data with
  | Some d => (session, set_sessions_data (<[session := to_dict d]> (sessions_data s1)) s1)
  | None => (session, s1)
  end.

(** [validate_session]; [now] is the reading of [utcnow()] on the path
    taken.  The addition to the stored deadline comes after the [try], so
    its [OverflowError] leaves the method. *)
Definition validate_session (now : datetime) (session : string) (s : Ingress)
    : result bool * Ingress :=
  match sessions s !! session with
  | None => (Ok false, s)
  | Some stored =>
      match utc_from_timestamp stored with
      | Raise e =>
          if isinstance e OverflowError_
          then (Ok true,
                set_sessions
                  (<[session := timestamp (plus_15_minutes now)]> (sessions s)) s)
          else (Raise e, s)
      | Ok valid_until =>
          if dt_lt valid_until now
          then (Ok false, s)
          else if plus_15_raises valid_until
          then (Raise date_overflow, s)
          else
            let valid_until' := plus_15_minutes valid_until in
            (Ok true,
             set_sessions (<[session := timestamp valid_until']> (sessions s)) s)
      end
  end.

(** [port in self.ports.values()] *)
Definition port_assigned (port : Z) (p : gmap string Z) : bool :=
  bool_decide (port ∈ (map_img p : gset Z)).

(** The [while] loop of [get_dynamic_port].  [port] is the loop variable,
    [n] the number of draws made so far; each unit of [fuel] pays for one
    evaluation of the loop condition.  [None] means that the loop is
    still running when the fuel is spent.  The probe is only asked when
    the first two disjuncts are false. *)
Fixpoint port_loop (o : Oracle) (fuel : nat) (n : nat) (port : option Z)
    (s : Ingress) : option (Z * Ingress) :=
  match fuel with
  | O => None
  | S fuel' =>
      let draw := Some (randint PORT_MIN PORT_MAX (entropy o n)) in
      match port with
      | None => port_loop o fuel' (S n) draw s
      | Some p =>
          if port_assigned p (ports s)
          then port_loop o fuel' (S n) draw s
          else
            let s1 := emit (CheckPort p) s in
            if check_port o n p
            then port_loop o fuel' (S n) draw s1
            else Some (p, s1)
      end
  end.

(** [get_dynamic_port] *)
Definition get_dynamic_port (o : Oracle) (fuel : nat) (addon_slug : string)
    (s : Ingress) : option (result Z * Ingress) :=
  match ports s !! addon_slug with
  | Some port => Some (Ok port, s)
  | None =>
      match port_loop o fuel 0%nat None s with
      | None => None
      | Some (port, s1) =>
          let s2 := set_ports (<[addon_slug := port]> (ports s1)) s1 in
          Some (Ok port, emit SaveData s2)
      end
  end.

(** [del_dynamic_port] *)
Definition del_dynamic_port (addon_slug : string) (s : Ingress)
    : result unit * Ingress :=
  match ports s !! addon_slug with
  | None => (Ok tt, s)
  | Some _ => (Ok tt, emit SaveData (set_ports (delete addon_slug (ports s)) s))
  end.

(** How [validate_session] and [_cleanup_sessions] see a stored expiry at the
    time [now]: the conversion raised an [OverflowError] (the exception both
    methods catch), it raised another exception, the expiry has passed, or
    the session is still live. *)
Inductive expiry_view : Type :=
  | Overflowed
  | Failed (e : exception)
  | Expired (valid_dt : datetime)
  | Live (valid_dt : datetime).

Definition view_expiry (now : datetime) (valid : stamp) : expiry_view :=
  match utc_from_timestamp valid with
  | Raise e => if isinstance e OverflowError_ then Overflowed else Failed e
  | Ok valid_dt => if dt_lt valid_dt now then Expired valid_dt else Live valid_dt
  end.

Definition is_live (v : expiry_view) : bool :=
  match v with Live _ => true | _ => false end.

Definition is_failed (v : expiry_view) : bool :=
  match v with Failed _ => true | _ => false end.

(** The sessions of a table that are live at [now], and the metadata that
    goes with a table of sessions. *)
Definition live_sessions (now : datetime) (ss : gmap string stamp)
    : gmap string stamp :=
  filter (fun kv => is_live (view_expiry now kv.2) = true) ss.

Definition metadata_of (ss : gmap string stamp)
    (sd : gmap string IngressSessionDataDict)
    : gmap string IngressSessionDataDict :=
  filter (fun kd => is_Some (ss !! kd.1) ∧ dict_truthy kd.2 = true) sd.

(** The port table is sound when no port has two owners and every port is
    of the reserved range. *)
Definition ports_ok (p : gmap string Z) : Prop :=
  (∀ a b port, p !! a = Some port → p !! b = Some port → a = b)
  ∧ (∀ a port, p !! a = Some port → PORT_MIN ≤ port ≤ PORT_MAX).

(** One call of a public or lifecycle method of the registry. *)
Inductive step : Ingress → Ingress → Prop :=
  | step_get_dynamic_port o fuel slug s r s' :
      get_dynamic_port o fuel slug s = Some (r, s') → step s s'
  | step_del_dynamic_port slug s :
      step s (snd (del_dynamic_port slug s))
  | step_create_session now session data s :
      step s (snd (create_session now session data s))
  | step_validate_session now session s :
      step s (snd (validate_session now session s))
  | step_load now installed s :
      step s (snd (load now installed s))
  | step_reload now installed s :
      step s (snd (reload now installed s)).

(** The states that the registry reaches from an empty port table when its
    calls run one after the other, each to its end before the next
    starts. *)
Inductive reachable_serial : Ingress → Prop :=
  | reachable_init s : ports s = ∅ → reachable_serial s
  | reachable_step s s' : reachable_serial s → step s s' → reachable_serial s'.

(** Calls that interleave.  [get_dynamic_port] is a coroutine, and the one
    place where it is suspended between reading and writing the port table
    is the [await check_port] of its loop condition (l.169): the candidate
    has passed the test [port in self.ports.values()] (l.168) by then, and
    when the probe answers that the port is free the loop ends and the
    candidate is written (l.174) without a second test.  A pending entry
    [(w, p)] is a call for the workload [w] that waits in the probe with
    the candidate [p].  [probe_step] is one move of such a call, from one
    suspension to the next or to its end. *)
Inductive probe_step :
    Ingress * list (string * Z) → Ingress * list (string * Z) → Prop :=
  | probe_suspend s pend w p :
      (* l.162-169: no port yet, a draw that is not assigned, the probe starts *)
      ports s !! w = None →
      PORT_MIN ≤ p ≤ PORT_MAX →
      port_assigned p (ports s) = false →
      probe_step (s, pend) (emit (CheckPort p) s, (w, p) :: pend)
  | probe_bound s pend1 pend2 w p p' :
      (* l.169-171: the probe says bound; the next draw that is not
         assigned goes to the probe *)
      PORT_MIN ≤ p' ≤ PORT_MAX →
      port_assigned p' (ports s) = false →
      probe_step (s, pend1 ++ (w, p) :: pend2)
                 (emit (CheckPort p') s, pend1 ++ (w, p') :: pend2)
  | probe_free s pend1 pend2 w p :
      (* l.169, l.174-175: the probe says free; the candidate is written
         and saved *)
      probe_step (s, pend1 ++ (w, p) :: pend2)
                 (emit SaveData (set_ports (<[w := p]> (ports s)) s),
                  pend1 ++ pend2).

(** One step of the registry with interleaving: a call that runs to its
    end while the pending ones wait (the methods other than
    [get_dynamic_port] do not suspend between their reads and their
    writes), or one move of a call of [get_dynamic_port]. *)
Inductive istep :
    Ingress * list (string * Z) → Ingress * list (string * Z) → Prop :=
  | istep_call s s' pend : step s s' → istep (s, pend) (s', pend)
  | istep_probe c c' : probe_step c c' → istep c c'.

(** The states, with their pending calls, that the registry reaches from an
    empty port table when calls may interleave. *)
Inductive reachable_interleaved : Ingress * list (string * Z) → Prop :=
  | interleaved_init s : ports s = ∅ → reachable_interleaved (s, [])
  | interleaved_step c c' :
      reachable_interleaved c → istep c c' → reachable_interleaved c'.

End Ingress.

(** The loop variable of [get_dynamic_port] is [None] before the first
    draw and the latest draw afterwards. *)
Definition drawn (o : Oracle) (n : nat) (port : option Z) : Prop :=
  match port with
  | None => True
  | Some p => ∃ m, n = S m ∧ p = randint PORT_MIN PORT_MAX (entropy o m)
  end.

(** ** A reference instance of the collaborators *)

(** The bounds of a 64-bit [time_t] and of [datetime], in epoch seconds. *)
Definition TIME_T_MAX : Z := 2 ^ 63 - 1.
Definition DATETIME_MIN : Z := -62135596800.   (* 0001-01-01T00:00:00Z *)
Definition DATETIME_MAX : Z := 253402300799.   (* 9999-12-31T23:59:59Z *)

(** Modelled from the spec: [utils.dt.utc_from_timestamp] is not among the
    sources at hand; the spec only says that a stored expiry may be one that
    "cannot be interpreted (corruption, out-of-range value)".  This instance
    follows [datetime.fromtimestamp], which the helper wraps: whole epoch
    seconds stand for the float, an [OverflowError] is raised outside the
    range of the platform's [time_t], a [ValueError] when the year falls
    outside 1..9999, and the conversion succeeds otherwise. *)
Definition z_utc_from_timestamp (t : Z) : result Z :=
  if bool_decide (t < - TIME_T_MAX - 1 ∨ TIME_T_MAX < t)
  then Raise (mkExc OverflowError_ "timestamp out of range for platform time_t")
  else if bool_decide (t < DATETIME_MIN ∨ DATETIME_MAX < t)
  then Raise (mkExc ValueError_ "year is out of range")
  else Ok t.

Definition ZTime : DateTimeApi := {|
  stamp := Z;
  datetime := Z;
  utc_from_timestamp := z_utc_from_timestamp;
  timestamp := fun dt => dt;
  plus_15_minutes := fun dt => dt + 900;
  plus_15_raises := fun dt => bool_decide (DATETIME_MAX < dt + 900);
  dt_lt := Z.ltb;
|}.

(** Session metadata as a flat JSON object; an empty object is false. *)
Definition FlatData : SessionDataApi := {|
  IngressSessionDataDict := list (string * string);
  IngressSessionData := list (string * string);
  from_dict := fun d => d;
  to_dict := fun d => d;
  dict_truthy := fun d => match d with [] => false | _ => true end;
|}.

(** The registry over the reference instance. *)
Definition ZIngress : Type := @Ingress ZTime FlatData.

Definition empty_ingress : ZIngress :=
  @mkIngress ZTime FlatData ∅ ∅ ∅ ∅ [].

(** The methods over the reference instance. *)
Abbreviation validate := (validate_session (DT:=ZTime) (SD:=FlatData)).
Abbreviation cleanup := (_cleanup_sessions (DT:=ZTime) (SD:=FlatData)).
Abbreviation get_port := (get_dynamic_port (DT:=ZTime) (SD:=FlatData)).

(** Concrete inputs over the reference instance.  [NOW] is a clock reading
    in whole epoch seconds. *)
Definition NOW : Z := 1700000000.

(** A table with one expired session ([b]), one live session ([c]) and one
    stored expiry whose year is out of range ([a]). *)
Definition corrupt_ingress : ZIngress :=
  @mkIngress ZTime FlatData
    ∅
    {[ "a" := 10 ^ 12; "b" := 1600000000; "c" := 1700000600 ]}
    {[ "b" := [("user", "bob")]; "c" := [("user", "carol")] ]}
    ∅ [].

(** A table with an expired session, a live one, and one whose expiry is
    beyond the platform's [time_t]. *)
Definition sample_ingress : ZIngress :=
  @mkIngress ZTime FlatData
    ∅
    {[ "b" := 1600000000; "c" := 1700000600; "d" := 10 ^ 20 ]}
    {[ "b" := [("user", "bob")]; "c" := [("user", "carol")] ]}
    {[ "addon_y" := 62001 ]} [].

(** A table with a session that expires in the last quarter of an hour of
    [datetime]. *)
Definition far_future_ingress : ZIngress :=
  @mkIngress ZTime FlatData ∅ {[ "f" := DATETIME_MAX - 100 ]} ∅ ∅ [].

Definition sample_addons : list Addon :=
  [ mkAddon "addon_x" true (Some "tok_x"); mkAddon "addon_y" false (Some "tok_y") ].

(** A network on which every port is bound, and one on which only 63210 is
    free. *)
Definition saturated : Oracle := mkOracle (fun n => Z.of_nat n) (fun _ _ => true).
Definition only_63210 : Oracle :=
  mkOracle (fun n => Z.of_nat n * 605) (fun _ p => negb (p =? 63210)).
Definition only_63815 : Oracle :=
  mkOracle (fun n => Z.of_nat n * 605) (fun _ p => negb (p =? 63815)).

(** ** Plugin manager *)

Module PluginManager.

(** The five plugin handles that [__init__] creates. *)
Inductive plugin : Type := Cli | Dns | Audio | Observer | Multicast.

Global Instance plugin_eq_dec : EqDecision plugin.
Proof. solve_decision. Defined.

(** Modelled from the spec: the plugin classes ([PluginCli], [PluginDns],
    [PluginAudio], [PluginObserver], [PluginMulticast]) are not among the
    sources at hand; their slugs are the names the spec gives the plugin
    set, "{cli, dns, audio, observer, multicast}". *)
Definition slug (p : plugin) : string :=
  match p with
  | Cli => "cli"
  | Dns => "dns"
  | Audio => "audio"
  | Observer => "observer"
  | Multicast => "multicast"
  end.

(** The [all_plugins] property. *)
Definition all_plugins : list plugin := [Cli; Dns; Audio; Observer; Multicast].

(** The members of [resolution.const] that the manager uses. *)
Inductive IssueType : Type := FATAL_ERROR | UPDATE_FAILED.
Inductive ContextType : Type := PLUGIN.
Inductive SuggestionType : Type := EXECUTE_REPAIR | EXECUTE_UPDATE.

Global Instance IssueType_eq_dec : EqDecision IssueType.
Proof. solve_decision. Defined.
Global Instance ContextType_eq_dec : EqDecision ContextType.
Proof. solve_decision. Defined.
Global Instance SuggestionType_eq_dec : EqDecision SuggestionType.
Proof. solve_decision. Defined.

(** The arguments of one [sys_resolution.create_issue] call. *)
Record Issue : Type := mkIssue {
  issue_type : IssueType;
  issue_context : ContextType;
  issue_reference : string;
  issue_suggestions : list SuggestionType;
}.

Global Instance Issue_eq_dec : EqDecision Issue.
Proof. solve_decision. Defined.

Inductive log_level : Type := INFO | WARNING | ERROR.

Global Instance log_level_eq_dec : EqDecision log_level.
Proof. solve_decision. Defined.

(** What the manager does to its collaborators, in the order it does it. *)
Inductive event : Type :=
  | CallLoad (p : plugin)                    (* await plugin.load() *)
  | CallUpdate (p : plugin)                  (* await plugin.update() *)
  | CallStop (p : plugin)                    (* await plugin.stop() *)
  | Log (level : log_level) (about : string) (* _LOGGER.<level>(...) *)
  | CreateIssue (i : Issue)                  (* self.sys_resolution.create_issue(...) *)
  | CaptureException (e : exception).        (* await async_capture_exception(err) *)

Global Instance event_eq_dec : EqDecision event.
Proof. solve_decision. Defined.

(** How the plugins and the supervisor behave during one call of the
    manager. *)
Record Env : Type := mkEnv {
  plugin_load : plugin -> result unit;
  plugin_need_update : plugin -> bool;
  plugin_update : plugin -> result unit;
  plugin_stop : plugin -> result unit;
  supervisor_need_update : bool;
}.

(** A computation of the manager: the events so far and how it ended. *)
Record M (A : Type) : Type := mkM { trace : list event; outcome : result A }.
Arguments mkM {A} trace outcome.
Arguments trace {A} m.
Arguments outcome {A} m.

Global Instance M_ret : MRet M := fun A a => mkM [] (Ok a).

Global Instance M_bind : MBind M := fun A B f m =>
  match outcome m with
  | Ok a => mkM (trace m ++ trace (f a)) (outcome (f a))
  | Raise e => mkM (trace m) (Raise e)
  end.

Definition tell (e : event) : M unit := mkM [e] (Ok tt).

(** Awaiting a collaborator: the call is recorded, then it returns or
    raises. *)
Definition await (call : event) (r : result unit) : M unit := mkM [call] r.

(** [try: body except cls as err: handler err]; the clauses are tried in
    order and an exception that matches none of them goes on. *)
Definition try_except {A} (body : M A)
    (clauses : list (exc_class * (exception -> M A))) : M A :=
  match outcome body with
  | Ok a => body
  | Raise e =>
      match list_find (fun c => isinstance e (fst c) = true) clauses with
      | Some (_, (_, handler)) =>
          mkM (trace body ++ trace (handler e)) (outcome (handler e))
      | None => body
      end
  end.

(** [for x in xs: body x] *)
Fixpoint for_each {A} (xs : list A) (body : A -> M unit) : M unit :=
  match xs with
  | [] => mret tt
  | x :: xs' => body x ;; for_each xs' body
  end.

(** The first loop of [load]. *)
Definition load_body (env : Env) (plugin : plugin) : M unit :=
  try_except (await (CallLoad plugin) (plugin_load env plugin))
    [ (Exception_, fun err =>
         tell (Log WARNING (slug plugin)) ;;
         tell (CreateIssue (mkIssue FATAL_ERROR PLUGIN (slug plugin) [EXECUTE_REPAIR])) ;;
         tell (CaptureException err)) ].

(** The second loop of [load]. *)
Definition update_body (env : Env) (plugin : plugin) : M unit :=
  if negb (plugin_need_update env plugin)
  then mret tt                                                   (* continue *)
  else
    tell (Log INFO (slug plugin)) ;;
    try_except (await (CallUpdate plugin) (plugin_update env plugin))
      [ (HassioError_, fun ex =>
           tell (Log ERROR (slug plugin)) ;;
           tell (CreateIssue (mkIssue UPDATE_FAILED PLUGIN (slug plugin) [EXECUTE_UPDATE])));
        (Exception_, fun err =>
           tell (Log WARNING (slug plugin)) ;;
           tell (CaptureException err)) ].

(** [PluginManager.load] *)
Definition load (env : Env) : M unit :=
  for_each all_plugins (load_body env) ;;
  if supervisor_need_update env
  then mret tt                                                   (* return *)
  else for_each all_plugins (update_body env).

(** The body of the loop of [shutdown]. *)
Definition shutdown_body (env : Env) (plugin : plugin) : M unit :=
  try_except (await (CallStop plugin) (plugin_stop env plugin))
    [ (Exception_, fun err =>
         tell (Log WARNING (slug plugin)) ;;
         tell (CaptureException err)) ].

(** [PluginManager.shutdown] *)
Definition shutdown (env : Env) : M unit :=
  for_each (filter (fun plugin => slug plugin ≠ "observer") all_plugins)
           (shutdown_body env).

(** Projections of a trace. *)
Definition load_calls (t : list event) : list plugin :=
  omap (fun e => match e with CallLoad p => Some p | _ => None end) t.
Definition update_calls (t : list event) : list plugin :=
  omap (fun e => match e with CallUpdate p => Some p | _ => None end) t.
Definition stop_calls (t : list event) : list plugin :=
  omap (fun e => match e with CallStop p => Some p | _ => None end) t.
Definition issues (t : list event) : list Issue :=
  omap (fun e => match e with CreateIssue i => Some i | _ => None end) t.
Definition captured (t : list event) : list exception :=
  omap (fun e => match e with CaptureException x => Some x | _ => None end) t.

(** The fatal-error issues of a trace that refer to [p]. *)
Definition fatal_issues_of (p : plugin) (t : list event) : list Issue :=
  filter (fun i => issue_type i = FATAL_ERROR ∧ issue_reference i = slug p)
         (issues t).

(** Concrete behaviours.  In [dns_broken] the load of the DNS plugin raises
    and every plugin reports that it needs an update; [supervisor_outdated]
    is the same with a supervisor that needs an update itself; in
    [stops_fail] the stop of every plugin raises. *)
Definition dns_broken : Env :=
  mkEnv (fun p => match p with
                  | Dns => Raise (mkExc OSError_ "dns")
                  | _ => Ok tt
                  end)
        (fun _ => true) (fun _ => Ok tt) (fun _ => Ok tt) false.

Definition supervisor_outdated : Env :=
  mkEnv (plugin_load dns_broken) (fun _ => true) (fun _ => Ok tt)
        (fun _ => Ok tt) true.

Definition stops_fail : Env :=
  mkEnv (fun _ => Ok tt) (fun _ => false) (fun _ => Ok tt)
        (fun p => Raise (mkExc HassioError_ (slug p))) false.

(** What the two passes of [load] and the pass of [shutdown] hand to the
    resolution centre and to the crash telemetry for one plugin. *)
Definition load_issue (env : Env) (p : plugin) : option Issue :=
  match plugin_load env p with
  | Raise _ => Some (mkIssue FATAL_ERROR PLUGIN (slug p) [EXECUTE_REPAIR])
  | Ok _ => None
  end.

Definition load_capture (env : Env) (p : plugin) : option exception :=
  match plugin_load env p with
  | Raise e => Some e
  | Ok _ => None
  end.

Definition update_issue (env : Env) (p : plugin) : option Issue :=
  if plugin_need_update env p then
    match plugin_update env p with
    | Raise e =>
        if isinstance e HassioError_
        then Some (mkIssue UPDATE_FAILED PLUGIN (slug p) [EXECUTE_UPDATE])
        else None
    | Ok _ => None
    end
  else None.

Definition update_capture (env : Env) (p : plugin) : option exception :=
  if plugin_need_update env p then
    match plugin_update env p with
    | Raise e => if isinstance e HassioError_ then None else Some e
    | Ok _ => None
    end
  else None.

Definition stop_capture (env : Env) (p : plugin) : option exception :=
  match plugin_stop env p with
  | Raise e => Some e
  | Ok _ => None
  end.

(** The warnings of a trace. *)
Definition warnings (t : list event) : list string :=
  omap (fun e => match e with Log WARNING about => Some about | _ => None end) t.

(** A behaviour in which two updates fail, one with a [HassioError] and one
    with another exception, and the load of the audio plugin raises. *)
Definition updates_fail : Env :=
  mkEnv (fun p => match p with
                  | Audio => Raise (mkExc Exception_ "audio")
                  | _ => Ok tt
                  end)
        (fun p => match p with Observer => false | _ => true end)
        (fun p => match p with
                  | Cli => Raise (mkExc HassioError_ "cli")
                  | Dns => Raise (mkExc ValueError_ "dns")
                  | _ => Ok tt
                  end)
        (fun _ => Ok tt) false.

(** A behaviour in which nothing fails and nothing needs an update. *)
Definition healthy : Env :=
  mkEnv (fun _ => Ok tt) (fun _ => false) (fun _ => Ok tt) (fun _ => Ok tt) false.

End PluginManager.

(** ** The rest of the registry *)

Section IngressRest.
Context `{DT : DateTimeApi} `{SD : SessionDataApi}.

(** [get]; [get_local_only] is the lookup by slug of the add-on manager
    ([self.sys_addons.get_local_only]). *)
Definition get (get_local_only : string → option Addon) (token : string)
    (s : Ingress) : option Addon :=
  match tokens s !! token with
  | None => None
  | Some slug => get_local_only slug
  end.

(** [unload] *)
Definition unload (s : Ingress) : result unit * Ingress :=
  (Ok tt, emit SaveData s).

(** The token under which [_update_token_list] files an installed add-on:
    none without ingress, none for a missing or empty token. *)
Definition indexed_token (a : Addon) : option string :=
  if with_ingress a then token_truthy (ingress_token a) else None.

(** Every session with metadata has an expiry. *)
Definition metadata_has_session (s : Ingress) : Prop :=
  ∀ k d, sessions_data s !! k = Some d → is_Some (sessions s !! k).

End IngressRest.

(** The add-on manager that knows the add-ons of a list by their slug. *)
Definition registry_of (installed : list Addon) (slug : string) : option Addon :=
  snd <$> list_find (fun a => addon_slug a = slug) installed.

(** Three add-ons: one with ingress and a token, one without ingress, one
    with ingress and an empty token. *)
Definition three_addons : list Addon :=
  [ mkAddon "addon_x" true (Some "tok_x");
    mkAddon "addon_y" false (Some "tok_y");
    mkAddon "addon_z" true (Some EmptyString) ].

(** * Properties of the ingress registry *)

Lemma pair_fst_eta {A B} (p : A * B) (a : A) : fst p = a → p = (a, snd p).
Proof. destruct p. simpl. by intros ->. Qed.

Section IngressFacts.
Context `{DT : DateTimeApi} `{SD : SessionDataApi}.
Implicit Types (s : Ingress) (now : datetime) (session : string).

(** ** Session cleanup *)

Lemma live_sessions_insert now (m : gmap string stamp) i x :
  m !! i = None →
  live_sessions now (<[i:=x]> m)
  = if is_live (view_expiry now x) then <[i:=x]> (live_sessions now m)
    else live_sessions now m.
Proof.
  intros Hi. unfold live_sessions. rewrite map_filter_insert. simpl.
  destruct (is_live (view_expiry now x)) eqn:E.
  - by rewrite decide_True.
  - rewrite decide_False by (by intros ?). by rewrite delete_id.
Qed.

Lemma metadata_of_insert_live (L : gmap string stamp)
    (old : gmap string IngressSessionDataDict) i x :
  L !! i = None →
  metadata_of (<[i:=x]> L) old
  = match old !! i with
    | Some d => if dict_truthy d then <[i:=d]> (metadata_of L old)
                else metadata_of L old
    | None => metadata_of L old
    end.
Proof.
  intros Hi. apply map_eq. intros j. apply option_eq. intros y.
  assert (Hold : metadata_of (<[i:=x]> L) old !! j = Some y
                 ↔ old !! j = Some y
                   ∧ (i = j ∨ is_Some (L !! j)) ∧ dict_truthy y = true).
  { unfold metadata_of. rewrite map_lookup_filter_Some. simpl.
    rewrite lookup_insert_is_Some. destruct (decide (i = j)); tauto. }
  assert (Hnew : metadata_of L old !! j = Some y
                 ↔ old !! j = Some y ∧ is_Some (L !! j) ∧ dict_truthy y = true).
  { unfold metadata_of. by rewrite map_lookup_filter_Some. }
  rewrite Hold. clear Hold.
  assert (HL : ¬ is_Some (L !! i)) by (rewrite Hi; apply is_Some_None).
  destruct (old !! i) as [d|] eqn:Ho; [destruct (dict_truthy d) eqn:Ht|].
  - rewrite lookup_insert_Some, Hnew.
    destruct (decide (i = j)) as [<-|Hne]; [rewrite Ho|];
      clear Hnew; intuition congruence.
  - rewrite Hnew.
    destruct (decide (i = j)) as [<-|Hne]; [rewrite Ho|];
      clear Hnew; intuition congruence.
  - rewrite Hnew.
    destruct (decide (i = j)) as [<-|Hne]; [rewrite Ho|];
      clear Hnew; intuition congruence.
Qed.

(** The loop of [_cleanup_sessions]: unless the conversion of some stored
    expiry raises an exception other than [OverflowError], the two fresh
    dictionaries hold the live sessions and their metadata. *)
Lemma cleanup_loop_ok now (old : gmap string IngressSessionDataDict)
    (m : gmap string stamp) :
  (∀ k v, m !! k = Some v → is_failed (view_expiry now v) = false) →
  map_fold (cleanup_step now old) (Ok (∅, ∅)) m
  = Ok (live_sessions now m, metadata_of (live_sessions now m) old).
Proof.
  revert m.
  apply (map_fold_weak_ind (fun r m =>
    (∀ k v, m !! k = Some v → is_failed (view_expiry now v) = false) →
    r = Ok (live_sessions now m, metadata_of (live_sessions now m) old))).
  - intros _. f_equal. unfold live_sessions, metadata_of.
    rewrite map_filter_empty. f_equal.
    apply map_eq. intros j. apply option_eq. intros y.
    rewrite map_lookup_filter_Some, lookup_empty. simpl.
    rewrite lookup_empty. split; [done | intros (_ & [? ?] & _); done].
  - intros i x m r Hi IH Hall.
    rewrite IH.
    2:{ intros k v Hk. apply (Hall k). rewrite lookup_insert_ne; [done|].
        intros ->. congruence. }
    specialize (Hall i x (lookup_insert_eq _ _ _)).
    rewrite live_sessions_insert by done.
    unfold cleanup_step, view_expiry in *.
    destruct (utc_from_timestamp x) as [dt|e].
    + destruct (dt_lt dt now); simpl; [done|].
      rewrite metadata_of_insert_live.
      2:{ unfold live_sessions. rewrite map_lookup_filter_None. by left. }
      destruct (old !! i) as [d|]; [destruct (dict_truthy d)|]; done.
    + destruct (isinstance e OverflowError_); simpl in *; [done|discriminate].
Qed.

(** The loop raises as soon as one conversion raises something else. *)
Lemma cleanup_loop_raise now (old : gmap string IngressSessionDataDict)
    (m : gmap string stamp) :
  (∃ k v, m !! k = Some v ∧ is_failed (view_expiry now v) = true) →
  ∃ e, map_fold (cleanup_step now old) (Ok (∅, ∅)) m = Raise e
       ∧ isinstance e OverflowError_ = false.
Proof.
  revert m.
  apply (map_fold_weak_ind (fun r m =>
    (∀ e, r = Raise e → isinstance e OverflowError_ = false)
    ∧ ((∃ k v, m !! k = Some v ∧ is_failed (view_expiry now v) = true) →
       ∃ e, r = Raise e ∧ isinstance e OverflowError_ = false))).
  - split; [done|]. intros (k & v & Hk & _). by rewrite lookup_empty in Hk.
  - intros i x m r Hi [IH1 IH2].
    assert (Hstep : ∀ e, cleanup_step now old i x r = Raise e →
                         isinstance e OverflowError_ = false).
    { intros e. unfold cleanup_step.
      destruct r as [[ss sd]|e0]; [|intros [= <-]; by apply IH1].
      destruct (utc_from_timestamp x) as [dt|e1].
      - destruct (dt_lt dt now); [done|].
        destruct (old !! i) as [d|]; [destruct (dict_truthy d)|]; done.
      - destruct (isinstance e1 OverflowError_) eqn:E; [done|].
        by intros [= <-]. }
    split; [done|].
    intros (k & v & Hk & Hf).
    destruct (cleanup_step now old i x r) as [[ss sd]|e] eqn:E;
      [|exists e; split; [done|by apply Hstep]].
    exfalso. unfold cleanup_step in E.
    destruct r as [[ss0 sd0]|e0]; [|done].
    apply lookup_insert_Some in Hk as [[<- <-]|[Hne Hk]].
    + unfold view_expiry in Hf.
      destruct (utc_from_timestamp x) as [dt|e1].
      * by destruct (dt_lt dt now).
      * by destruct (isinstance e1 OverflowError_).
    + destruct IH2 as (e & He & _); [eauto|done].
Qed.

(** [_cleanup_sessions] when no conversion raises another exception. *)
Lemma cleanup_sessions_ok now s :
  (∀ k v, sessions s !! k = Some v → is_failed (view_expiry now v) = false) →
  _cleanup_sessions now s
  = (Ok tt,
     set_sessions_data
       (metadata_of (live_sessions now (sessions s)) (sessions_data s))
       (set_sessions (live_sessions now (sessions s)) s)).
Proof.
  intros H. unfold _cleanup_sessions. by rewrite cleanup_loop_ok.
Qed.

(** [_cleanup_sessions] when some conversion does: the exception leaves the
    method before the write-back, and no table has changed. *)
Lemma cleanup_sessions_raise now s :
  (∃ k v, sessions s !! k = Some v ∧ is_failed (view_expiry now v) = true) →
  ∃ e, _cleanup_sessions now s = (Raise e, s)
       ∧ isinstance e OverflowError_ = false.
Proof.
  intros H. unfold _cleanup_sessions.
  destruct (cleanup_loop_raise now (sessions_data s) (sessions s) H)
    as (e & -> & He).
  by exists e.
Qed.

(** The two cases are the only ones. *)
Lemma failed_dec now (m : gmap string stamp) :
  (∀ k v, m !! k = Some v → is_failed (view_expiry now v) = false)
  ∨ (∃ k v, m !! k = Some v ∧ is_failed (view_expiry now v) = true).
Proof.
  induction m as [|i x m Hi IH] using map_ind.
  - left. intros k v Hk. by rewrite lookup_empty in Hk.
  - destruct IH as [IH|(k & v & Hk & Hf)].
    + destruct (is_failed (view_expiry now x)) eqn:E.
      * right. exists i, x. by rewrite lookup_insert_eq.
      * left. intros k v [[<- <-]|[_ Hk]]%lookup_insert_Some; eauto.
    + right. exists k, v. split; [|done].
      rewrite lookup_insert_ne; [done|]. intros ->. congruence.
Qed.

Lemma cleanup_sessions_ok_inv now s s' :
  _cleanup_sessions now s = (Ok tt, s') →
  (∀ k v, sessions s !! k = Some v → is_failed (view_expiry now v) = false)
  ∧ s' = set_sessions_data
           (metadata_of (live_sessions now (sessions s)) (sessions_data s))
           (set_sessions (live_sessions now (sessions s)) s).
Proof.
  intros H. destruct (failed_dec now (sessions s)) as [Hok|Hbad].
  - split; [done|]. rewrite cleanup_sessions_ok in H by done. congruence.
  - destruct (cleanup_sessions_raise now s Hbad) as (e & He & _). congruence.
Qed.

(** ** Session validation *)

(** The four regular cases of [validate_session]: false for an id that is
    not in the session table; when the conversion of the stored expiry
    raises the [OverflowError] that the method catches, the expiry is reset
    to now + 15 minutes and the result is true; when the stored expiry has
    passed the result is false; when it has not, and 15 minutes can be
    added to it, the previous expiry + 15 minutes is stored and the result
    is true. *)
Lemma validate_session_cases now session s :
  (sessions s !! session = None →
   validate_session now session s = (Ok false, s))
  ∧ (∀ stored e,
       sessions s !! session = Some stored →
       utc_from_timestamp stored = Raise e →
       isinstance e OverflowError_ = true →
       validate_session now session s
       = (Ok true,
          set_sessions
            (<[session := timestamp (plus_15_minutes now)]> (sessions s)) s))
  ∧ (∀ stored valid_until,
       sessions s !! session = Some stored →
       utc_from_timestamp stored = Ok valid_until →
       dt_lt valid_until now = true →
       validate_session now session s = (Ok false, s))
  ∧ (∀ stored valid_until,
       sessions s !! session = Some stored →
       utc_from_timestamp stored = Ok valid_until →
       dt_lt valid_until now = false →
       plus_15_raises valid_until = false →
       validate_session now session s
       = (Ok true,
          set_sessions
            (<[session := timestamp (plus_15_minutes valid_until)]> (sessions s)) s)).
Proof.
  unfold validate_session. repeat split.
  - by intros ->.
  - by intros stored e -> -> ->.
  - by intros stored dt -> -> ->.
  - by intros stored dt -> -> -> ->.
Qed.

(** The addition to a live deadline that is within 15 minutes of
    [datetime.max] raises, and the [OverflowError] leaves the method. *)
Lemma validate_session_date_overflow now session s stored valid_until :
  sessions s !! session = Some stored →
  utc_from_timestamp stored = Ok valid_until →
  dt_lt valid_until now = false →
  plus_15_raises valid_until = true →
  validate_session now session s = (Raise date_overflow, s).
Proof. unfold validate_session. by intros -> -> -> ->. Qed.

(** An exception of the conversion that is not an [OverflowError] leaves
    [validate_session] as it is raised, with the tables untouched. *)
Lemma validate_session_other_exception now session s stored e :
  sessions s !! session = Some stored →
  utc_from_timestamp stored = Raise e →
  isinstance e OverflowError_ = false →
  validate_session now session s = (Raise e, s).
Proof. unfold validate_session. by intros -> -> ->. Qed.


(** ** Lifecycle hooks *)

Lemma cleanup_sessions_set_tokens now t s :
  _cleanup_sessions now (set_tokens t s)
  = (fst (_cleanup_sessions now s), set_tokens t (snd (_cleanup_sessions now s))).
Proof.
  unfold _cleanup_sessions. simpl.
  destruct (map_fold _ _ _) as [[ss sd]|e]; done.
Qed.

(** C4 (as amended): [reload] runs the two steps of [load] in the opposite
    order, the session cleanup first and the rebuild of the token index
    second.  Whenever the session cleanup runs to its end, the state after
    [reload] is the state after [load]. *)
Theorem reload_vs_load now installed s :
  is_ok (fst (_cleanup_sessions now s)) = true →
  reload now installed s
  = _update_token_list installed (snd (_cleanup_sessions now s))
  ∧ load now installed s
    = _cleanup_sessions now (snd (_update_token_list installed s))
  ∧ reload now installed s = load now installed s.
Proof.
  intros Hok. unfold reload, load, _update_token_list. cbn [fst snd].
  rewrite cleanup_sessions_set_tokens.
  destruct (_cleanup_sessions now s) as [[[]|e] s1]; simpl in *;
    [done|discriminate].
Qed.

(** When the cleanup raises, [load] has rebuilt the token index already
    and [reload] has changed nothing. *)
Lemma reload_load_cleanup_raises now installed s e :
  fst (_cleanup_sessions now s) = Raise e →
  reload now installed s = (Raise e, s)
  ∧ load now installed s = (Raise e, snd (_update_token_list installed s)).
Proof.
  unfold reload, load, _update_token_list.
  rewrite cleanup_sessions_set_tokens.
  destruct (_cleanup_sessions now s) as [[[]|e'] s1] eqn:E; simpl; [done|].
  intros [= <-].
  destruct (failed_dec now (sessions s)) as [Hok|Hbad].
  - rewrite cleanup_sessions_ok in E by done. discriminate.
  - destruct (cleanup_sessions_raise now s Hbad) as (e2 & He2 & _).
    rewrite He2 in E. by injection E as -> ->.
Qed.

(** ** Dynamic ports *)

Lemma randint_range raw :
  PORT_MIN ≤ randint PORT_MIN PORT_MAX raw ≤ PORT_MAX.
Proof.
  unfold randint, PORT_MIN, PORT_MAX.
  pose proof (Z.mod_pos_bound raw (65500 - 62000 + 1)). lia.
Qed.

Lemma port_assigned_true (port : Z) (p : gmap string Z) :
  port_assigned port p = true ↔ ∃ a, p !! a = Some port.
Proof.
  unfold port_assigned. rewrite bool_decide_eq_true. apply elem_of_map_img.
Qed.

Lemma port_assigned_false (port : Z) (p : gmap string Z) :
  port_assigned port p = false ↔ ∀ a, p !! a ≠ Some port.
Proof.
  unfold port_assigned. rewrite bool_decide_eq_false, elem_of_map_img.
  split; [intros H a Ha; apply H; eauto | intros H [a Ha]; by apply (H a)].
Qed.

(** What the loop returns is a draw that is neither assigned nor bound, and
    the loop touches nothing but the I/O log. *)
Lemma port_loop_sound o fuel :
  ∀ n port s p s1,
    drawn o n port →
    port_loop o fuel n port s = Some (p, s1) →
    port_assigned p (ports s) = false
    ∧ (∃ m, p = randint PORT_MIN PORT_MAX (entropy o m)
            ∧ check_port o (S m) p = false)
    ∧ ports s1 = ports s
    ∧ In (CheckPort p) (io_log s1).
Proof.
  induction fuel as [|fuel IH]; intros n port s p s1 Hd Hloop; [done|].
  simpl in Hloop. destruct port as [q|].
  - destruct Hd as (m & -> & ->).
    destruct (port_assigned _ (ports s)) eqn:Ha.
    + apply IH in Hloop; [done|]. by exists (S m).
    + destruct (check_port o (S m) _) eqn:Hc.
      * apply IH in Hloop; [done|]. by exists (S m).
      * injection Hloop as <- <-. simpl. repeat split; try done.
        -- by exists m.
        -- apply in_or_app. right. by left.
  - apply IH in Hloop; [done|]. by exists n.
Qed.

(** While every draw is assigned or bound, the loop goes on. *)
Lemma port_loop_saturated o (p0 : gmap string Z) :
  (∀ n, let p := randint PORT_MIN PORT_MAX (entropy o n) in
        port_assigned p p0 = true ∨ check_port o (S n) p = true) →
  ∀ fuel n port s,
    ports s = p0 → drawn o n port → port_loop o fuel n port s = None.
Proof.
  intros Hsat. induction fuel as [|fuel IH]; intros n port s Hp Hd; [done|].
  simpl. destruct port as [q|].
  - destruct Hd as (m & -> & ->). rewrite Hp.
    destruct (port_assigned _ p0) eqn:Ha.
    + apply IH; [done|]. by exists (S m).
    + destruct (Hsat m) as [Hs|Hs]; simpl in Hs; [congruence|].
      rewrite Hs. apply IH; [done|]. by exists (S m).
  - apply IH; [done|]. by exists n.
Qed.

(** When the [k]-th draw is the first that is neither assigned nor bound,
    the loop returns it after [k + 2] evaluations of its condition. *)
Lemma port_loop_finds o (p0 : gmap string Z) (k : nat) :
  (∀ m, (m < k)%nat →
        let p := randint PORT_MIN PORT_MAX (entropy o m) in
        port_assigned p p0 = true ∨ check_port o (S m) p = true) →
  port_assigned (randint PORT_MIN PORT_MAX (entropy o k)) p0 = false →
  check_port o (S k) (randint PORT_MIN PORT_MAX (entropy o k)) = false →
  ∀ d n fuel s,
    (n + d = S k)%nat → (S d ≤ fuel)%nat → ports s = p0 →
    ∃ s', port_loop o fuel n
            (match n with
             | O => None
             | S m => Some (randint PORT_MIN PORT_MAX (entropy o m))
             end) s
          = Some (randint PORT_MIN PORT_MAX (entropy o k), s')
          ∧ ports s' = p0.
Proof.
  intros Hbusy Hfree Hunbound.
  induction d as [|d IH]; intros n fuel s Hn Hfuel Hp;
    (destruct fuel as [|fuel]; [lia|]).
  - assert (n = S k) as -> by lia. simpl. rewrite Hp, Hfree, Hunbound. eauto.
  - destruct n as [|m]; simpl.
    + apply (IH 1%nat); [lia|lia|done].
    + rewrite Hp.
      destruct (port_assigned (randint PORT_MIN PORT_MAX (entropy o m)) p0)
        eqn:Ha.
      * apply (IH (S (S m))); [lia|lia|done].
      * destruct (Hbusy m) as [Hb|Hb]; [lia|simpl in Hb; congruence|].
        simpl in Hb. rewrite Hb. apply (IH (S (S m))); [lia|lia|done].
Qed.

(** X18: [get_dynamic_port] returns whenever some draw is free.  When the
    [k]-th draw is the first that is neither assigned nor reported as
    bound, the call returns it within [k + 2] evaluations of the loop
    condition and files it as the port of the workload. *)
Lemma get_dynamic_port_returns o slug s (k fuel : nat) :
  ports s !! slug = None →
  (∀ m, (m < k)%nat →
        let p := randint PORT_MIN PORT_MAX (entropy o m) in
        port_assigned p (ports s) = true ∨ check_port o (S m) p = true) →
  port_assigned (randint PORT_MIN PORT_MAX (entropy o k)) (ports s) = false →
  check_port o (S k) (randint PORT_MIN PORT_MAX (entropy o k)) = false →
  (k + 2 ≤ fuel)%nat →
  ∃ s', get_dynamic_port o fuel slug s
        = Some (Ok (randint PORT_MIN PORT_MAX (entropy o k)), s')
        ∧ ports s'
          = <[slug := randint PORT_MIN PORT_MAX (entropy o k)]> (ports s).
Proof.
  intros Hnone Hbusy Hfree Hunbound Hfuel. unfold get_dynamic_port.
  rewrite Hnone.
  destruct (port_loop_finds o (ports s) k Hbusy Hfree Hunbound
              (S k) 0%nat fuel s) as (s1 & -> & Hp1); [lia|lia|done|].
  eexists. split; [done|]. simpl. by rewrite Hp1.
Qed.

Lemma ports_ok_insert (p : gmap string Z) slug port :
  ports_ok p → p !! slug = None → port_assigned port p = false →
  PORT_MIN ≤ port ≤ PORT_MAX →
  ports_ok (<[slug := port]> p).
Proof.
  intros [Hinj Hrng] Hfree Hnew0 Hr.
  pose proof (proj1 (port_assigned_false _ _) Hnew0) as Hnew. split.
  - intros a b q Ha Hb.
    apply lookup_insert_Some in Ha as [[<- <-]|[Hna Ha]];
      apply lookup_insert_Some in Hb as [[<- Hq]|[Hnb Hb]].
    + done.
    + exfalso. by apply (Hnew b).
    + exfalso. subst. by apply (Hnew a).
    + eauto.
  - intros a q [[<- <-]|[Hna Ha]]%lookup_insert_Some; eauto.
Qed.

Lemma ports_ok_delete (p : gmap string Z) slug :
  ports_ok p → ports_ok (delete slug p).
Proof.
  intros [Hinj Hrng]. split.
  - intros a b q [_ Ha]%lookup_delete_Some [_ Hb]%lookup_delete_Some. eauto.
  - intros a q [_ Ha]%lookup_delete_Some. eauto.
Qed.

Lemma get_dynamic_port_ports_ok o fuel slug s r s' :
  ports_ok (ports s) →
  get_dynamic_port o fuel slug s = Some (r, s') →
  ports_ok (ports s').
Proof.
  intros Hok. unfold get_dynamic_port.
  destruct (ports s !! slug) as [q|] eqn:Hs; [by intros [= <- <-]|].
  destruct (port_loop o fuel 0 None s) as [[q s1]|] eqn:Hloop; [|done].
  intros [= <- <-]. simpl.
  apply port_loop_sound in Hloop as (Ha & (m & -> & _) & Hp & _); [|done].
  rewrite Hp. apply ports_ok_insert; auto using randint_range.
Qed.

Lemma cleanup_sessions_ports now s :
  ports (snd (_cleanup_sessions now s)) = ports s.
Proof.
  unfold _cleanup_sessions. destruct (map_fold _ _ _) as [[ss sd]|e]; done.
Qed.

Lemma step_ports_ok s s' :
  step s s' → ports_ok (ports s) → ports_ok (ports s').
Proof.
  intros Hstep Hok. destruct Hstep as [o fuel slug s r s' Hget|slug s
    |now session data s|now session s|now installed s|now installed s].
  - by eapply get_dynamic_port_ports_ok.
  - unfold del_dynamic_port. destruct (ports s !! slug); [|done].
    simpl. by apply ports_ok_delete.
  - unfold create_session. by destruct data.
  - unfold validate_session.
    destruct (sessions s !! session); [|done].
    destruct (utc_from_timestamp _) as [dt|e];
      [destruct (dt_lt dt now); [|destruct (plus_15_raises dt)]
      |destruct (isinstance e OverflowError_)]; done.
  - unfold load, _update_token_list. by rewrite cleanup_sessions_ports.
  - unfold reload, _update_token_list.
    pose proof (cleanup_sessions_ports now s) as Hp.
    destruct (_cleanup_sessions now s) as [[[]|e] s1]; simpl in *; by rewrite Hp.
Qed.

Lemma step_ports_range s s' :
  step s s' →
  (∀ a port, ports s !! a = Some port → PORT_MIN ≤ port ≤ PORT_MAX) →
  ∀ a port, ports s' !! a = Some port → PORT_MIN ≤ port ≤ PORT_MAX.
Proof.
  intros Hstep Hrng.
  assert (Hsame : ports s' = ports s → ∀ a port,
            ports s' !! a = Some port → PORT_MIN ≤ port ≤ PORT_MAX).
  { intros ->. exact Hrng. }
  destruct Hstep as [o fuel slug s r s' Hget|slug s
    |now session data s|now session s|now installed s|now installed s].
  - unfold get_dynamic_port in Hget.
    destruct (ports s !! slug) as [q|]; [injection Hget as <- <-; exact Hrng|].
    destruct (port_loop o fuel 0 None s) as [[q s1]|] eqn:Hloop; [|done].
    injection Hget as <- <-.
    apply port_loop_sound in Hloop as (_ & (m & -> & _) & Hp & _); [|done].
    intros a port. simpl. rewrite Hp.
    intros [[_ <-]|[_ Ha]]%lookup_insert_Some; [apply randint_range|eauto].
  - unfold del_dynamic_port. destruct (ports s !! slug); [|exact Hrng].
    intros a port. simpl. intros [_ Ha]%lookup_delete_Some. eauto.
  - apply Hsame. unfold create_session. by destruct data.
  - apply Hsame. unfold validate_session.
    destruct (sessions s !! session); [|done].
    destruct (utc_from_timestamp _) as [dt|e];
      [destruct (dt_lt dt now); [|destruct (plus_15_raises dt)]
      |destruct (isinstance e OverflowError_)]; done.
  - apply Hsame. unfold load, _update_token_list.
    by rewrite cleanup_sessions_ports.
  - apply Hsame. unfold reload, _update_token_list.
    pose proof (cleanup_sessions_ports now s) as Hp.
    destruct (_cleanup_sessions now s) as [[[]|e] s1]; simpl in *; by rewrite Hp.
Qed.

(** With interleaving the ports of the table and the candidates of the
    pending calls stay in the range. *)
Lemma interleaved_ports_range c :
  reachable_interleaved c →
  (∀ a port, ports (fst c) !! a = Some port → PORT_MIN ≤ port ≤ PORT_MAX)
  ∧ (∀ w p, (w, p) ∈ snd c → PORT_MIN ≤ p ≤ PORT_MAX).
Proof.
  induction 1 as [s Hempty|c c' _ [IHp IHq] Hstep].
  - simpl. split; [intros a port; by rewrite Hempty, lookup_empty|].
    by intros w p ?%elem_of_nil.
  - destruct Hstep as [s s' pend Hstep|c c' Hprobe]; simpl in *.
    + split; [by apply (step_ports_range s s')|done].
    + destruct Hprobe as [s pend w p Hw Hr Ha|s pend1 pend2 w p p' Hr Ha
                          |s pend1 pend2 w p]; simpl in *.
      * split; [done|].
        intros w' p' [[= -> ->]|Hin]%elem_of_cons; [done|eauto].
      * split; [done|].
        intros w' q [Hin|[[= -> ->]|Hin]%elem_of_cons]%elem_of_app; [|done|];
          apply (IHq w' q), elem_of_app; [by left|right; by right].
      * split.
        -- intros a port [[_ <-]|[_ Hl]]%lookup_insert_Some; [|eauto].
           apply (IHq w p), elem_of_app. right. by left.
        -- intros w' q [Hin|Hin]%elem_of_app;
             apply (IHq w' q), elem_of_app; [by left|right; by right].
Qed.

(** A call of [get_dynamic_port] that runs alone is one of the
    interleavings: the moves of [probe_step], with nothing in between, take
    the state before the call to the state after it. *)
Lemma port_loop_probe_steps w pend o fuel :
  ∀ n port s p s1 c0,
    drawn o n port →
    port_loop o fuel n port s = Some (p, s1) →
    (∀ d, PORT_MIN ≤ d ≤ PORT_MAX → port_assigned d (ports s) = false →
          probe_step c0 (emit (CheckPort d) s, (w, d) :: pend)) →
    rtc probe_step c0
        (emit SaveData (set_ports (<[w := p]> (ports s1)) s1), pend).
Proof.
  induction fuel as [|fuel IH]; intros n port s p s1 c0 Hd Hloop Hc0; [done|].
  simpl in Hloop. destruct port as [q|].
  - destruct Hd as (m & -> & ->).
    destruct (port_assigned (randint PORT_MIN PORT_MAX (entropy o m)) (ports s))
      eqn:Ha.
    + eapply IH; [|exact Hloop|exact Hc0]. by exists (S m).
    + eapply rtc_l; [apply Hc0; [apply randint_range|done]|].
      destruct (check_port o (S m) _).
      * eapply IH; [|exact Hloop|]; [by exists (S m)|].
        intros d Hr Hfree.
        apply (probe_bound (emit (CheckPort _) s) [] pend w _ d Hr Hfree).
      * injection Hloop as <- <-. apply rtc_once.
        apply (probe_free (emit (CheckPort _) s) [] pend w).
  - eapply IH; [|exact Hloop|exact Hc0]. by exists n.
Qed.

Lemma get_dynamic_port_interleaves o fuel w s p s' pend :
  ports s !! w = None →
  get_dynamic_port o fuel w s = Some (Ok p, s') →
  rtc probe_step (s, pend) (s', pend).
Proof.
  intros Hw. unfold get_dynamic_port. rewrite Hw.
  destruct (port_loop o fuel 0 None s) as [[q s1]|] eqn:Hloop; [|done].
  intros [= <- <-].
  apply (port_loop_probe_steps w pend o fuel 0%nat None s q s1); [done|done|].
  intros d Hr Hfree. by apply probe_suspend.
Qed.

(** C5 (as amended): in every state that the registry reaches from an empty
    port table by calls that run one after the other, no two workloads
    hold the same port; in every state that it reaches at all, interleaved
    calls included, every assigned port is of the range 62000..65500; a
    port that [get_dynamic_port] allocates is a draw that was neither
    assigned at its test nor reported as bound by the probe;
    [del_dynamic_port] keeps the table sound. *)
Theorem dynamic_ports_invariant :
  (∀ s, reachable_serial s → ports_ok (ports s))
  ∧ (∀ s pend, reachable_interleaved (s, pend) →
               ∀ a port, ports s !! a = Some port → PORT_MIN ≤ port ≤ PORT_MAX)
  ∧ (∀ o fuel slug s port s',
       ports s !! slug = None →
       get_dynamic_port o fuel slug s = Some (Ok port, s') →
       port_assigned port (ports s) = false
       ∧ ∃ n, port = randint PORT_MIN PORT_MAX (entropy o n)
              ∧ check_port o (S n) port = false)
  ∧ (∀ slug s, ports_ok (ports s) →
               ports_ok (ports (snd (del_dynamic_port slug s)))).
Proof.
  split; [|split; [|split]].
  - intros s Hr. induction Hr as [s Hempty|s s' _ IH Hstep].
    + rewrite Hempty. split; intros *; by rewrite lookup_empty.
    + by eapply step_ports_ok.
  - intros s pend Hr. by apply (interleaved_ports_range (s, pend)).
  - intros o fuel slug s port s' Hfree. unfold get_dynamic_port. rewrite Hfree.
    destruct (port_loop o fuel 0 None s) as [[q s1]|] eqn:Hloop; [|done].
    intros [= <- <-].
    by apply port_loop_sound in Hloop as (Ha & Hm & _).
  - intros slug s Hok. apply (step_ports_ok s); [constructor|done].
Qed.

(** C3 (as amended): [get_dynamic_port] has no retry bound and no error for
    an exhausted range.  Called for a workload without an assignment, while
    every draw is assigned or reported as bound, the loop goes on: whatever
    the number of attempts, the call has neither returned nor raised. *)
Theorem get_dynamic_port_unbounded o slug s :
  ports s !! slug = None →
  (∀ n, let p := randint PORT_MIN PORT_MAX (entropy o n) in
        port_assigned p (ports s) = true ∨ check_port o (S n) p = true) →
  ∀ fuel, get_dynamic_port o fuel slug s = None.
Proof.
  intros Hfree Hsat fuel. unfold get_dynamic_port. rewrite Hfree.
  by rewrite (port_loop_saturated o (ports s) Hsat).
Qed.

(** C8: once [get_dynamic_port] has returned a port for a workload, a
    second call returns the same port from the table, whatever the network
    and the random source would answer: the state, I/O log included, is the
    one the first call left, so there has been no probe and no save. *)
Theorem get_dynamic_port_idempotent o fuel slug s port s1 :
  get_dynamic_port o fuel slug s = Some (Ok port, s1) →
  ∀ o' fuel', get_dynamic_port o' fuel' slug s1 = Some (Ok port, s1).
Proof.
  intros Hget o' fuel'.
  assert (Hs1 : ports s1 !! slug = Some port).
  { unfold get_dynamic_port in Hget.
    destruct (ports s !! slug) as [q|] eqn:Hs; [by injection Hget as <- <-|].
    destruct (port_loop o fuel 0 None s) as [[q s']|]; [|done].
    injection Hget as <- <-. simpl. apply lookup_insert_eq. }
  unfold get_dynamic_port. by rewrite Hs1.
Qed.

End IngressFacts.

(** * Properties of the plugin manager *)

Section PluginManagerFacts.
Import PluginManager.
Implicit Types (env : Env) (p : plugin).

Lemma for_each_total {A} (body : A → M unit) (l : list A) :
  (∀ x, outcome (body x) = Ok tt) →
  for_each l body = mkM (concat ((fun x => trace (body x)) <$> l)) (Ok tt).
Proof.
  intros Hok. induction l as [|x l IH]; [done|].
  simpl. unfold mbind, M_bind. by rewrite Hok, IH.
Qed.

Lemma omap_concat_fmap {A B C} (f : B → option C) (g : A → list B) (l : list A) :
  omap f (concat (g <$> l)) = concat ((fun x => omap f (g x)) <$> l).
Proof.
  induction l as [|x l IH]; [done|].
  rewrite !fmap_cons. cbn [concat]. by rewrite omap_app, IH.
Qed.

Lemma elem_of_concat_fmap {A B} (g : A → list B) (l : list A) (y : B) :
  y ∈ concat (g <$> l) ↔ ∃ x, x ∈ l ∧ y ∈ g x.
Proof.
  induction l as [|x l IH].
  - simpl. split; [by intros ?%elem_of_nil | by intros (x & ?%elem_of_nil & _)].
  - rewrite fmap_cons. cbn [concat]. rewrite elem_of_app, IH. split.
    + intros [H|(x' & H1 & H2)]; [exists x|exists x']; split; try done;
        [by left|by right].
    + intros (x' & [->|H1]%elem_of_cons & H2); [by left|right; eauto].
Qed.

Lemma filter_none {A} (P : A → Prop) `{∀ x, Decision (P x)} (l : list A) :
  (∀ x, x ∈ l → ¬ P x) → filter P l = [].
Proof.
  induction l as [|x l IH]; intros Hall; [done|].
  rewrite filter_cons, decide_False by (apply Hall; by left).
  apply IH. intros y Hy. apply Hall. by right.
Qed.

(** The three loop bodies, case by case. *)
Lemma load_body_cases env p :
  load_body env p
  = match plugin_load env p with
    | Ok _ => mkM [CallLoad p] (Ok tt)
    | Raise e =>
        mkM [CallLoad p; Log WARNING (slug p);
             CreateIssue (mkIssue FATAL_ERROR PLUGIN (slug p) [EXECUTE_REPAIR]);
             CaptureException e] (Ok tt)
    end.
Proof. unfold load_body, await. by destruct (plugin_load env p) as [[]|e]. Qed.

Lemma update_body_cases env p :
  update_body env p
  = if plugin_need_update env p then
      match plugin_update env p with
      | Ok _ => mkM [Log INFO (slug p); CallUpdate p] (Ok tt)
      | Raise e =>
          if isinstance e HassioError_
          then mkM [Log INFO (slug p); CallUpdate p; Log ERROR (slug p);
                    CreateIssue (mkIssue UPDATE_FAILED PLUGIN (slug p) [EXECUTE_UPDATE])]
                   (Ok tt)
          else mkM [Log INFO (slug p); CallUpdate p; Log WARNING (slug p);
                    CaptureException e] (Ok tt)
      end
    else mkM [] (Ok tt).
Proof.
  unfold update_body, await.
  destruct (plugin_need_update env p); [|done]. simpl.
  destruct (plugin_update env p) as [[]|[c msg]]; [done|].
  by destruct c.
Qed.

Lemma shutdown_body_cases env p :
  shutdown_body env p
  = match plugin_stop env p with
    | Ok _ => mkM [CallStop p] (Ok tt)
    | Raise e =>
        mkM [CallStop p; Log WARNING (slug p); CaptureException e] (Ok tt)
    end.
Proof. unfold shutdown_body, await. by destruct (plugin_stop env p) as [[]|e]. Qed.

Lemma load_body_outcome env p : outcome (load_body env p) = Ok tt.
Proof. rewrite load_body_cases. by destruct (plugin_load env p). Qed.

Lemma update_body_outcome env p : outcome (update_body env p) = Ok tt.
Proof.
  rewrite update_body_cases. destruct (plugin_need_update env p); [|done].
  destruct (plugin_update env p) as [|e]; [done|].
  by destruct (isinstance e HassioError_).
Qed.

Lemma shutdown_body_outcome env p : outcome (shutdown_body env p) = Ok tt.
Proof. rewrite shutdown_body_cases. by destruct (plugin_stop env p). Qed.

(** [load] as a whole: the load pass, then the update pass unless the
    supervisor itself needs an update; no exception leaves it. *)
Lemma load_unfold env :
  load env
  = mkM (concat ((fun p => trace (load_body env p)) <$> all_plugins)
         ++ (if supervisor_need_update env then []
             else concat ((fun p => trace (update_body env p)) <$> all_plugins)))
        (Ok tt).
Proof.
  unfold load.
  rewrite (for_each_total (load_body env)) by apply load_body_outcome.
  rewrite (for_each_total (update_body env)) by apply update_body_outcome.
  unfold mbind, M_bind. simpl.
  by destruct (supervisor_need_update env).
Qed.

Lemma shutdown_unfold env :
  shutdown env
  = mkM (concat ((fun p => trace (shutdown_body env p))
                   <$> [Cli; Dns; Audio; Multicast])) (Ok tt).
Proof.
  unfold shutdown.
  by rewrite (for_each_total (shutdown_body env)) by apply shutdown_body_outcome.
Qed.

Lemma update_body_issues env p i :
  i ∈ issues (trace (update_body env p)) → issue_type i = UPDATE_FAILED.
Proof.
  rewrite update_body_cases. destruct (plugin_need_update env p).
  - destruct (plugin_update env p) as [|e];
      [|destruct (isinstance e HassioError_)]; cbn;
      try (by intros ?%elem_of_nil).
    by intros ->%list_elem_of_singleton.
  - by intros ?%elem_of_nil.
Qed.

(** C6: in [load] an exception of one plugin's load never leaves the
    method nor stops the loop: every plugin of the set gets its load call,
    in the order of the set; for each plugin whose load raises exactly one
    fatal-error issue with the plugin's slug as reference and "execute
    repair" as suggestion is created, and none for a plugin whose load
    returns; the exception is handed to the crash telemetry. *)
Theorem load_isolates_failures env :
  outcome (load env) = Ok tt
  ∧ load_calls (trace (load env)) = all_plugins
  ∧ (∀ p, fatal_issues_of p (trace (load env))
          = match plugin_load env p with
            | Raise _ => [mkIssue FATAL_ERROR PLUGIN (slug p) [EXECUTE_REPAIR]]
            | Ok _ => []
            end)
  ∧ (∀ p e, plugin_load env p = Raise e →
            CaptureException e ∈ trace (load env)).
Proof.
  rewrite load_unfold. cbn [trace outcome].
  split; [done|]. split; [|split].
  - unfold load_calls. rewrite omap_app.
    assert (Hnone : ∀ l, concat ((fun x => omap
       (fun e => match e with CallLoad p => Some p | _ => None end)
       (trace (update_body env x))) <$> l) = []).
    { induction l as [|x l IH]; [done|]. rewrite fmap_cons. cbn [concat].
      rewrite IH, update_body_cases.
      destruct (plugin_need_update env x); [|done].
      destruct (plugin_update env x) as [|e]; [done|].
      by destruct (isinstance e HassioError_). }
    destruct (supervisor_need_update env); rewrite !omap_concat_fmap, ?Hnone;
      unfold all_plugins; cbn [fmap list_fmap concat];
      rewrite !load_body_cases;
      destruct (plugin_load env Cli), (plugin_load env Dns),
        (plugin_load env Audio), (plugin_load env Observer),
        (plugin_load env Multicast); reflexivity.
  - intros p. unfold fatal_issues_of, issues.
    rewrite omap_app, filter_app.
    rewrite (filter_none _ (omap _ (if supervisor_need_update env then _ else _))).
    2:{ intros i Hi [Hty _].
        destruct (supervisor_need_update env); [by apply elem_of_nil in Hi|].
        rewrite omap_concat_fmap in Hi.
        apply elem_of_concat_fmap in Hi as (q & _ & Hq).
        apply update_body_issues in Hq. congruence. }
    rewrite app_nil_r, omap_concat_fmap.
    unfold all_plugins. cbn [fmap list_fmap concat].
    rewrite !load_body_cases.
    destruct p;
      destruct (plugin_load env Cli), (plugin_load env Dns),
        (plugin_load env Audio), (plugin_load env Observer),
        (plugin_load env Multicast); reflexivity.
  - intros p e Hp. apply elem_of_app. left.
    apply elem_of_concat_fmap. exists p. split.
    + unfold all_plugins. destruct p; repeat constructor.
    + rewrite load_body_cases, Hp. repeat constructor.
Qed.

(** C7: when the supervisor itself needs an update, [load] calls [update]
    on no plugin, whatever the plugins report; otherwise it calls [update],
    in the order of the set, on exactly the plugins that report that they
    need one. *)
Theorem load_update_gate env :
  update_calls (trace (load env))
  = if supervisor_need_update env then []
    else filter (fun p => plugin_need_update env p = true) all_plugins.
Proof.
  rewrite load_unfold. cbn [trace].
  unfold update_calls. rewrite omap_app, omap_concat_fmap.
  assert (Hnone : ∀ l, concat ((fun x => omap
     (fun e => match e with CallUpdate p => Some p | _ => None end)
     (trace (load_body env x))) <$> l) = []).
  { induction l as [|x l IH]; [done|]. rewrite fmap_cons. cbn [concat].
    rewrite IH, load_body_cases. by destruct (plugin_load env x). }
  rewrite Hnone. cbn [app].
  destruct (supervisor_need_update env); [done|].
  rewrite omap_concat_fmap.
  generalize all_plugins. induction l as [|x l IH]; [done|].
  rewrite fmap_cons, filter_cons. cbn [concat]. rewrite IH, update_body_cases.
  destruct (plugin_need_update env x);
    [rewrite decide_True by done|by rewrite decide_False by done].
  destruct (plugin_update env x) as [|e]; [done|].
  by destruct (isinstance e HassioError_).
Qed.

(** C9: [shutdown] calls [stop] on cli, dns, audio and multicast, in this
    order, and never on the observer; whatever a [stop] raises is caught,
    logged and handed to the crash telemetry; [shutdown] itself never
    raises and creates no issue. *)
Theorem shutdown_best_effort env :
  outcome (shutdown env) = Ok tt
  ∧ stop_calls (trace (shutdown env)) = [Cli; Dns; Audio; Multicast]
  ∧ (Observer ∉ stop_calls (trace (shutdown env)))
  ∧ issues (trace (shutdown env)) = []
  ∧ (∀ p e, p ≠ Observer → plugin_stop env p = Raise e →
            Log WARNING (slug p) ∈ trace (shutdown env)
            ∧ CaptureException e ∈ trace (shutdown env)).
Proof.
  rewrite shutdown_unfold. cbn [trace outcome].
  assert (Hcalls : stop_calls (concat ((fun p => trace (shutdown_body env p))
                     <$> [Cli; Dns; Audio; Multicast]))
                   = [Cli; Dns; Audio; Multicast]).
  { cbn [fmap list_fmap concat]. rewrite !shutdown_body_cases.
    destruct (plugin_stop env Cli), (plugin_stop env Dns),
      (plugin_stop env Audio), (plugin_stop env Multicast); reflexivity. }
  split; [done|]. split; [done|]. split; [|split].
  - rewrite Hcalls. rewrite !elem_of_cons, elem_of_nil.
    intros [?|[?|[?|[?|[]]]]]; discriminate.
  - cbn [fmap list_fmap concat]. rewrite !shutdown_body_cases.
    destruct (plugin_stop env Cli), (plugin_stop env Dns),
      (plugin_stop env Audio), (plugin_stop env Multicast); reflexivity.
  - intros p e Hp He.
    assert (Hin : p ∈ [Cli; Dns; Audio; Multicast])
      by (destruct p; first [congruence | repeat constructor]).
    split; apply elem_of_concat_fmap; exists p; (split; [done|]);
      rewrite shutdown_body_cases, He; repeat constructor.
Qed.

End PluginManagerFacts.

(** * The properties on concrete inputs *)

Section IngressInstances.

(** The four cases of [validate_session] on [sample_ingress]: an unknown
    id, an expiry beyond [time_t] (reset to [NOW] + 900), an expired
    session, and a live one, whose new expiry is the old one + 900 and not
    [NOW] + 900. *)
Lemma validate_session_cases_witness :
  validate NOW "zz" sample_ingress = (Ok false, sample_ingress)
  ∧ validate NOW "d" sample_ingress
    = (Ok true, set_sessions (<["d" := NOW + 900]> (sessions sample_ingress))
                             sample_ingress)
  ∧ validate NOW "b" sample_ingress = (Ok false, sample_ingress)
  ∧ validate NOW "c" sample_ingress
    = (Ok true, set_sessions (<["c" := 1700000600 + 900]> (sessions sample_ingress))
                             sample_ingress)
  ∧ 1700000600 + 900 ≠ NOW + 900.
Proof.
  split; [|split; [|split; [|split]]].
  - apply (validate_session_cases (DT:=ZTime) (SD:=FlatData)
             NOW "zz" sample_ingress).
    vm_compute; reflexivity.
  - apply (proj1 (proj2 (validate_session_cases (DT:=ZTime) (SD:=FlatData)
                           NOW "d" sample_ingress))
             (10 ^ 20)
             (mkExc OverflowError_ "timestamp out of range for platform time_t"));
      vm_compute; reflexivity.
  - apply (proj1 (proj2 (proj2 (validate_session_cases (DT:=ZTime) (SD:=FlatData)
                                  NOW "b" sample_ingress)))
             1600000000 1600000000); vm_compute; reflexivity.
  - apply (proj2 (proj2 (proj2 (validate_session_cases (DT:=ZTime) (SD:=FlatData)
                                  NOW "c" sample_ingress)))
             1700000600 1700000600); vm_compute; reflexivity.
  - unfold NOW. lia.
Defined.


(** C1: [validate_session] on stored expiries that it does not survive.
    The comment above its [try] says that the check is there "to avoid
    crash on malformed timestamp", and the claim has every expiry that
    cannot be interpreted reset to now + 15 minutes.  The stored expiry of
    session [a] of [corrupt_ingress] is a float whose year is out of
    range: the conversion raises a [ValueError], the [except OverflowError]
    clause does not catch it, and the method raises with the expiry as it
    was.  The expiry of session [f] of [far_future_ingress] converts and
    has not passed, but the addition of 15 minutes, which is outside the
    [try], raises an [OverflowError] that leaves the method as well. *)
Theorem validate_session_crashes :
  utc_from_timestamp (DateTimeApi:=ZTime) (10 ^ 12)
  = Raise (mkExc ValueError_ "year is out of range")
  ∧ validate NOW "a" corrupt_ingress
    = (Raise (mkExc ValueError_ "year is out of range"), corrupt_ingress)
  ∧ sessions (snd (validate NOW "a" corrupt_ingress)) !! "a" = Some (10 ^ 12)
  ∧ utc_from_timestamp (DateTimeApi:=ZTime) (DATETIME_MAX - 100)
    = Ok (DATETIME_MAX - 100)
  ∧ dt_lt (DateTimeApi:=ZTime) (DATETIME_MAX - 100) NOW = false
  ∧ validate NOW "f" far_future_ingress
    = (Raise date_overflow, far_future_ingress)
  ∧ sessions (snd (validate NOW "f" far_future_ingress)) !! "f"
    = Some (DATETIME_MAX - 100).
Proof.
  assert (Ha : sessions corrupt_ingress !! "a" = Some (10 ^ 12))
    by (vm_compute; reflexivity).
  assert (Hconv : utc_from_timestamp (DateTimeApi:=ZTime) (10 ^ 12)
                  = Raise (mkExc ValueError_ "year is out of range"))
    by (vm_compute; reflexivity).
  assert (Hva : validate NOW "a" corrupt_ingress
                = (Raise (mkExc ValueError_ "year is out of range"),
                   corrupt_ingress)).
  { apply (validate_session_other_exception (DT:=ZTime) (SD:=FlatData)
             NOW "a" corrupt_ingress (10 ^ 12) _ Ha Hconv).
    vm_compute; reflexivity. }
  assert (Hf : sessions far_future_ingress !! "f" = Some (DATETIME_MAX - 100))
    by (vm_compute; reflexivity).
  assert (Hconv' : utc_from_timestamp (DateTimeApi:=ZTime) (DATETIME_MAX - 100)
                   = Ok (DATETIME_MAX - 100))
    by (vm_compute; reflexivity).
  assert (Hlive : dt_lt (DateTimeApi:=ZTime) (DATETIME_MAX - 100) NOW = false)
    by (vm_compute; reflexivity).
  assert (Hvf : validate NOW "f" far_future_ingress
                = (Raise date_overflow, far_future_ingress)).
  { apply (validate_session_date_overflow (DT:=ZTime) (SD:=FlatData)
             NOW "f" far_future_ingress _ _ Hf Hconv' Hlive).
    vm_compute; reflexivity. }
  rewrite Hva, Hvf. simpl. done.
Qed.

(** C2: [_cleanup_sessions] on [corrupt_ingress].  The stored expiry of
    session [a] is a float whose year is out of range, for which the
    conversion raises a [ValueError]; the [except OverflowError] clause
    does not catch it, the method raises, and nothing is removed: the
    expired session [b] and the malformed session [a] both stay in the
    expiry table, and the metadata of [b] stays as well. *)
Theorem cleanup_sessions_value_error_escapes :
  utc_from_timestamp (DateTimeApi:=ZTime) (10 ^ 12)
  = Raise (mkExc ValueError_ "year is out of range")
  ∧ view_expiry (DT:=ZTime) NOW 1600000000 = Expired (DT:=ZTime) 1600000000
  ∧ cleanup NOW corrupt_ingress
    = (Raise (mkExc ValueError_ "year is out of range"), corrupt_ingress)
  ∧ sessions (snd (cleanup NOW corrupt_ingress)) !! "a" = Some (10 ^ 12)
  ∧ sessions (snd (cleanup NOW corrupt_ingress)) !! "b" = Some 1600000000
  ∧ sessions_data (snd (cleanup NOW corrupt_ingress)) !! "b"
    = Some [("user", "bob")].
Proof.
  assert (Hbad : ∃ k v, sessions corrupt_ingress !! k = Some v
                        ∧ is_failed (view_expiry (DT:=ZTime) NOW v) = true).
  { exists "a", (10 ^ 12). split; vm_compute; reflexivity. }
  destruct (cleanup_sessions_raise (DT:=ZTime) (SD:=FlatData) NOW corrupt_ingress Hbad)
    as (e & He & _).
  assert (Hfst : fst (cleanup NOW corrupt_ingress)
                 = Raise (mkExc ValueError_ "year is out of range"))
    by (vm_compute; reflexivity).
  rewrite He in Hfst. simpl in Hfst. injection Hfst as ->.
  rewrite He. simpl.
  repeat split; vm_compute; reflexivity.
Qed.

(** On [sample_ingress] the cleanup runs to its end and [reload] agrees
    with [load]. *)
Lemma reload_vs_load_witness :
  is_ok (fst (cleanup NOW sample_ingress)) = true
  ∧ reload (DT:=ZTime) (SD:=FlatData) NOW sample_addons sample_ingress
    = load (DT:=ZTime) (SD:=FlatData) NOW sample_addons sample_ingress.
Proof.
  assert (Hok : is_ok (fst (cleanup NOW sample_ingress)) = true)
    by (vm_compute; reflexivity).
  split; [exact Hok|].
  exact (proj2 (proj2 (reload_vs_load (DT:=ZTime) (SD:=FlatData)
                         NOW sample_addons sample_ingress Hok))).
Defined.

(** C4, as stated, fails on [corrupt_ingress]: after [load] the token index
    knows [tok_x], after [reload] it does not. *)
Lemma reload_differs_from_load :
  tokens (snd (load (DT:=ZTime) (SD:=FlatData) NOW sample_addons corrupt_ingress))
    !! "tok_x" = Some "addon_x"
  ∧ tokens (snd (reload (DT:=ZTime) (SD:=FlatData) NOW sample_addons corrupt_ingress))
    !! "tok_x" = None
  ∧ reload (DT:=ZTime) (SD:=FlatData) NOW sample_addons corrupt_ingress
    ≠ load (DT:=ZTime) (SD:=FlatData) NOW sample_addons corrupt_ingress.
Proof.
  assert (H1 : tokens (snd (load (DT:=ZTime) (SD:=FlatData) NOW sample_addons
                              corrupt_ingress)) !! "tok_x" = Some "addon_x")
    by (vm_compute; reflexivity).
  assert (H2 : tokens (snd (reload (DT:=ZTime) (SD:=FlatData) NOW sample_addons
                              corrupt_ingress)) !! "tok_x" = None)
    by (vm_compute; reflexivity).
  split; [exact H1|]. split; [exact H2|].
  intros Heq. rewrite Heq in H2. rewrite H1 in H2. discriminate.
Qed.

(** On a network where every port is bound, fifty attempts or five
    thousand leave the call running. *)
Lemma get_dynamic_port_unbounded_witness :
  get_port saturated 50 "addon_x" empty_ingress = None
  ∧ get_port saturated 5000 "addon_x" empty_ingress = None.
Proof.
  assert (Hfree : ports empty_ingress !! "addon_x" = None)
    by (vm_compute; reflexivity).
  assert (Hsat : ∀ n, let p := randint PORT_MIN PORT_MAX (entropy saturated n) in
                      port_assigned p (ports empty_ingress) = true
                      ∨ check_port saturated (S n) p = true)
    by (intros n; right; reflexivity).
  split; apply (get_dynamic_port_unbounded (DT:=ZTime) (SD:=FlatData)
                  saturated "addon_x" empty_ingress Hfree Hsat).
Defined.

(** C3, as stated, fails on that network: every draw collides, and there
    is no number of attempts after which the call has raised an error, or
    has ended at all. *)
Lemma get_dynamic_port_never_fails_loudly :
  (∀ n, check_port saturated (S n)
          (randint PORT_MIN PORT_MAX (entropy saturated n)) = true)
  ∧ (¬ ∃ fuel e s',
         get_port saturated fuel "addon_x" empty_ingress = Some (Raise e, s'))
  ∧ (∀ fuel, get_port saturated fuel "addon_x" empty_ingress = None).
Proof.
  assert (Hnone : ∀ fuel, get_port saturated fuel "addon_x" empty_ingress = None).
  { intros fuel. unfold get_dynamic_port.
    assert (ports empty_ingress !! "addon_x" = None) as ->
      by (vm_compute; reflexivity).
    rewrite (port_loop_saturated saturated (ports empty_ingress)); try done.
    intros n. by right. }
  split; [done|]. split; [|done].
  intros (fuel & e & s' & H). by rewrite Hnone in H.
Qed.

(** With only 63210 free, the third draw is accepted. *)
Lemma get_dynamic_port_63210 :
  ∃ s1, get_port only_63210 4 "addon_x" empty_ingress = Some (Ok 63210, s1)
        ∧ ports s1 !! "addon_x" = Some 63210
        ∧ io_log s1 = [CheckPort 62000; CheckPort 62605; CheckPort 63210; SaveData].
Proof.
  assert (H1 : fst <$> get_port only_63210 4 "addon_x" empty_ingress
               = Some (Ok 63210)) by (vm_compute; reflexivity).
  assert (H2 : (fun x => ports (snd x) !! "addon_x")
                 <$> get_port only_63210 4 "addon_x" empty_ingress
               = Some (Some 63210)) by (vm_compute; reflexivity).
  assert (H3 : (fun x => io_log (snd x))
                 <$> get_port only_63210 4 "addon_x" empty_ingress
               = Some [CheckPort 62000; CheckPort 62605; CheckPort 63210; SaveData])
    by (vm_compute; reflexivity).
  destruct (get_port only_63210 4 "addon_x" empty_ingress) as [[r s1]|];
    [|discriminate H1].
  exists s1. cbn [fmap option_fmap option_map fst snd] in H1, H2, H3.
  injection H1 as ->. injection H2 as H2. injection H3 as H3. done.
Defined.

(** Two calls of [get_dynamic_port] that interleave, for [addon_x] and for
    [addon_y]: both draw 63210 and find it unassigned, both wait in the
    probe, the probe answers free to both, and both write 63210. *)
Lemma interleaved_collision :
  ∃ s : ZIngress,
    reachable_interleaved (s, [])
    ∧ ports s = <["addon_y" := 63210]> (<["addon_x" := 63210]> ∅).
Proof.
  assert (Hr : PORT_MIN ≤ 63210 ≤ PORT_MAX) by (unfold PORT_MIN, PORT_MAX; lia).
  pose (s1 := emit (CheckPort 63210) empty_ingress).
  pose (s2 := emit (CheckPort 63210) s1).
  pose (s3 := emit SaveData (set_ports (<["addon_x" := 63210]> (ports s2)) s2)).
  pose (s4 := emit SaveData (set_ports (<["addon_y" := 63210]> (ports s3)) s3)).
  assert (H0 : reachable_interleaved (empty_ingress, []))
    by (apply interleaved_init; reflexivity).
  assert (H1 : reachable_interleaved (s1, [("addon_x", 63210)])).
  { apply (interleaved_step _ _ H0), istep_probe, probe_suspend;
      [apply lookup_empty|exact Hr|vm_compute; reflexivity]. }
  assert (H2 : reachable_interleaved
                 (s2, [("addon_y", 63210); ("addon_x", 63210)])).
  { apply (interleaved_step _ _ H1), istep_probe, probe_suspend;
      [apply lookup_empty|exact Hr|vm_compute; reflexivity]. }
  assert (H3 : reachable_interleaved (s3, [("addon_y", 63210)])).
  { apply (interleaved_step _ _ H2), istep_probe.
    exact (probe_free s2 [("addon_y", 63210)] [] "addon_x" 63210). }
  assert (H4 : reachable_interleaved (s4, [])).
  { apply (interleaved_step _ _ H3), istep_probe.
    exact (probe_free s3 [] [] "addon_y" 63210). }
  exists s4. split; [exact H4|reflexivity].
Defined.

(** C5, as stated, fails when calls interleave: the table that the run of
    [interleaved_collision] reaches from the empty one holds 63210 for two
    workloads. *)
Lemma dynamic_ports_collide :
  ∃ s : ZIngress,
    reachable_interleaved (s, [])
    ∧ ports s !! "addon_x" = Some 63210
    ∧ ports s !! "addon_y" = Some 63210
    ∧ "addon_x" ≠ "addon_y"
    ∧ ¬ ports_ok (ports s).
Proof.
  destruct interleaved_collision as (s & Hreach & Hp).
  assert (Hx : ports s !! "addon_x" = Some 63210).
  { rewrite Hp, lookup_insert_ne by discriminate. apply lookup_insert_eq. }
  assert (Hy : ports s !! "addon_y" = Some 63210).
  { rewrite Hp. apply lookup_insert_eq. }
  exists s. repeat split; try done.
  intros [Hinj _]. by specialize (Hinj _ _ _ Hx Hy).
Qed.

(** Two allocations in a row, for [addon_x] on a network where only 63210
    is free and for [addon_y] on one where only 63815 is: the state after
    them is reachable by serial calls and sound, 63815 was not assigned
    when it was taken, and deleting the port of [addon_x] keeps the table
    sound; the ports of the table of [interleaved_collision] are of the
    range. *)
Lemma dynamic_ports_invariant_witness :
  ∃ s1 s2 s3 : ZIngress,
    get_port only_63210 4 "addon_x" empty_ingress = Some (Ok 63210, s1)
    ∧ get_port only_63815 5 "addon_y" s1 = Some (Ok 63815, s2)
    ∧ ports_ok (ports s2)
    ∧ port_assigned 63815 (ports s1) = false
    ∧ ports_ok (ports (snd (del_dynamic_port "addon_x" s2)))
    ∧ reachable_interleaved (s3, [])
    ∧ ports s3 !! "addon_y" = Some 63210
    ∧ PORT_MIN ≤ 63210 ≤ PORT_MAX.
Proof.
  assert (H1 : fst <$> get_port only_63210 4 "addon_x" empty_ingress
               = Some (Ok 63210)) by (vm_compute; reflexivity).
  assert (H2 : (fun x => fst <$> get_port only_63815 5 "addon_y" (snd x))
                 <$> get_port only_63210 4 "addon_x" empty_ingress
               = Some (Some (Ok 63815))) by (vm_compute; reflexivity).
  assert (H3 : (fun x => ports (snd x) !! "addon_y")
                 <$> get_port only_63210 4 "addon_x" empty_ingress
               = Some None) by (vm_compute; reflexivity).
  destruct (get_port only_63210 4 "addon_x" empty_ingress) as [[r1 s1]|] eqn:Hg1;
    [|discriminate H1].
  cbn [fmap option_fmap option_map fst snd] in H1, H2, H3.
  injection H1 as ->. injection H2 as H2. injection H3 as H3.
  destruct (get_port only_63815 5 "addon_y" s1) as [[r2 s2]|] eqn:Hg2;
    [|discriminate H2].
  cbn [fmap option_fmap option_map fst] in H2. injection H2 as ->.
  destruct interleaved_collision as (s3 & Hreach & Hp3).
  assert (Hy : ports s3 !! "addon_y" = Some 63210)
    by (rewrite Hp3; apply lookup_insert_eq).
  destruct (dynamic_ports_invariant (DT:=ZTime) (SD:=FlatData))
    as (Hinv & Hrange & Hacc & Hdel).
  assert (Hok : ports_ok (ports s2)).
  { apply Hinv. apply (reachable_step s1); [apply (reachable_step empty_ingress)|].
    - apply reachable_init. reflexivity.
    - exact (step_get_dynamic_port _ _ _ _ _ _ Hg1).
    - exact (step_get_dynamic_port _ _ _ _ _ _ Hg2). }
  exists s1, s2, s3. split; [reflexivity|]. split; [exact Hg2|].
  split; [exact Hok|]. split; [exact (proj1 (Hacc _ _ _ _ _ _ H3 Hg2))|].
  split; [exact (Hdel "addon_x" s2 Hok)|]. split; [exact Hreach|].
  split; [exact Hy|]. exact (Hrange s3 [] Hreach "addon_y" 63210 Hy).
Defined.

(** A second call on the state after the allocation, on the saturated
    network and with no fuel at all, returns 63210 and leaves the state,
    I/O log included, as it was. *)
Lemma get_dynamic_port_idempotent_witness :
  ∃ s1, get_port only_63210 4 "addon_x" empty_ingress = Some (Ok 63210, s1)
        ∧ get_port saturated 0 "addon_x" s1 = Some (Ok 63210, s1)
        ∧ io_log s1 = [CheckPort 62000; CheckPort 62605; CheckPort 63210; SaveData].
Proof.
  destruct get_dynamic_port_63210 as (s1 & Hget & _ & Hlog).
  exists s1. split; [exact Hget|]. split; [|exact Hlog].
  exact (get_dynamic_port_idempotent (DT:=ZTime) (SD:=FlatData)
           only_63210 4 "addon_x" empty_ingress 63210 s1 Hget saturated 0%nat).
Defined.

End IngressInstances.

Section PluginManagerInstances.
Import PluginManager.

(** The scenario of the spec: the load of the DNS plugin raises.  All five
    plugins get their load call, there is exactly one fatal-error issue and
    it refers to the DNS plugin, and the exception reaches the telemetry. *)
Lemma load_isolates_failures_witness :
  outcome (PluginManager.load dns_broken) = Ok tt
  ∧ load_calls (trace (PluginManager.load dns_broken))
    = [Cli; Dns; Audio; Observer; Multicast]
  ∧ fatal_issues_of Dns (trace (PluginManager.load dns_broken))
    = [mkIssue FATAL_ERROR PLUGIN "dns" [EXECUTE_REPAIR]]
  ∧ fatal_issues_of Cli (trace (PluginManager.load dns_broken)) = []
  ∧ CaptureException (mkExc OSError_ "dns")
    ∈ trace (PluginManager.load dns_broken).
Proof.
  destruct (load_isolates_failures dns_broken) as (H1 & H2 & H3 & H4).
  split; [exact H1|]. split; [exact H2|]. split; [exact (H3 Dns)|].
  split; [exact (H3 Cli)|].
  apply (H4 Dns). reflexivity.
Defined.

(** The gate on both sides: with an outdated supervisor no plugin is
    updated although all five ask for it; with an up-to-date one all five
    are, in the order of the set. *)
Example load_update_gate_scenarios :
  update_calls (trace (PluginManager.load supervisor_outdated)) = []
  ∧ update_calls (trace (PluginManager.load dns_broken))
    = [Cli; Dns; Audio; Observer; Multicast].
Proof. split; vm_compute; reflexivity. Qed.

(** Every stop raises: the four plugins are still stopped in order, the
    observer is not, and the exception of the DNS plugin is logged and
    reaches the telemetry. *)
Lemma shutdown_best_effort_witness :
  outcome (shutdown stops_fail) = Ok tt
  ∧ stop_calls (trace (shutdown stops_fail)) = [Cli; Dns; Audio; Multicast]
  ∧ issues (trace (shutdown stops_fail)) = []
  ∧ Log WARNING "dns" ∈ trace (shutdown stops_fail)
  ∧ CaptureException (mkExc HassioError_ "dns") ∈ trace (shutdown stops_fail).
Proof.
  destruct (shutdown_best_effort stops_fail) as (H1 & H2 & _ & H4 & H5).
  split; [exact H1|]. split; [exact H2|]. split; [exact H4|].
  apply (H5 Dns); [discriminate|reflexivity].
Defined.

End PluginManagerInstances.

(** * Further properties of the ingress registry *)

Section IngressSessionFacts.
Context `{DT : DateTimeApi} `{SD : SessionDataApi}.
Implicit Types (s : Ingress) (now : datetime) (session : string).

Lemma is_live_true now v :
  is_live (view_expiry now v) = true
  ↔ ∃ dt, utc_from_timestamp v = Ok dt ∧ dt_lt dt now = false.
Proof.
  unfold view_expiry. destruct (utc_from_timestamp v) as [dt|e].
  - destruct (dt_lt dt now) eqn:E; simpl.
    + split; [done|]. intros (dt' & [= <-] & ?). congruence.
    + split; [eauto|done].
  - destruct (isinstance e OverflowError_); simpl;
      (split; [done|by intros (? & ? & _)]).
Qed.

(** X1: a session that [create_session] has just made is valid.  When the
    expiry that [create_session] stores converts back to a datetime that is
    not before the time of the check, and to which 15 minutes can be added
    within the range of [datetime], [validate_session] returns true and
    moves the expiry on by 15 minutes; [create_session] returns the id it
    was given by the token source. *)
Theorem create_then_validate now now' session data s valid :
  utc_from_timestamp (timestamp (plus_15_minutes now)) = Ok valid →
  dt_lt valid now' = false →
  plus_15_raises valid = false →
  fst (create_session now session data s) = session
  ∧ fst (validate_session now' session (snd (create_session now session data s)))
    = Ok true
  ∧ sessions (snd (validate_session now' session
                     (snd (create_session now session data s)))) !! session
    = Some (timestamp (plus_15_minutes valid)).
Proof.
  intros Hconv Hlive Hadd.
  assert (Hs : sessions (snd (create_session now session data s)) !! session
               = Some (timestamp (plus_15_minutes now))).
  { unfold create_session. destruct data; simpl; apply lookup_insert_eq. }
  split; [unfold create_session; by destruct data|].
  unfold validate_session. rewrite Hs, Hconv, Hlive, Hadd. simpl.
  split; [done|]. apply lookup_insert_eq.
Qed.

(** X2: [create_session] files the new id with the expiry now + 15 minutes
    and leaves every other session, the ports, the token index and the I/O
    log alone; metadata that is passed is stored under the id, so that
    [get_session_data] returns it (through [to_dict] and [from_dict]) when
    its stored form is truthy; without metadata the metadata table does not
    change. *)
Theorem create_session_effects now session data s :
  let s1 := snd (create_session now session data s) in
  sessions s1 = <[session := timestamp (plus_15_minutes now)]> (sessions s)
  ∧ (∀ k, k ≠ session →
          sessions s1 !! k = sessions s !! k
          ∧ sessions_data s1 !! k = sessions_data s !! k)
  ∧ (∀ d, data = Some d →
          sessions_data s1 !! session = Some (to_dict d)
          ∧ (dict_truthy (to_dict d) = true →
             get_session_data session s1 = Some (from_dict (to_dict d))))
  ∧ (data = None → sessions_data s1 = sessions_data s)
  ∧ ports s1 = ports s ∧ tokens s1 = tokens s ∧ io_log s1 = io_log s.
Proof.
  unfold create_session. destruct data as [d|]; simpl.
  - split; [done|]. split.
    { intros k Hk. by rewrite !lookup_insert_ne. }
    split; [|done].
    intros d' [= <-]. split; [apply lookup_insert_eq|].
    intros Ht. unfold get_session_data. simpl.
    by rewrite lookup_insert_eq, Ht.
  - split; [done|]. split.
    { intros k Hk. by rewrite lookup_insert_ne. }
    done.
Qed.

(** X3: [validate_session] only ever rewrites the expiry of the session it
    is asked about.  Whatever it returns, the set of session ids, the
    expiry of every other session, the metadata, the ports, the token
    index and the I/O log are as before; and it returns true only for an
    id of the table. *)
Theorem validate_session_frame now session s :
  let s1 := snd (validate_session now session s) in
  dom (sessions s1) = dom (sessions s)
  ∧ (∀ k, k ≠ session → sessions s1 !! k = sessions s !! k)
  ∧ sessions_data s1 = sessions_data s
  ∧ ports s1 = ports s ∧ tokens s1 = tokens s ∧ io_log s1 = io_log s
  ∧ (fst (validate_session now session s) = Ok true →
     is_Some (sessions s !! session)).
Proof.
  unfold validate_session.
  destruct (sessions s !! session) as [stored|] eqn:Hs.
  2:{ simpl. repeat split; try done. }
  assert (Hdom : ∀ x, dom (<[session := x]> (sessions s)) = dom (sessions s)).
  { intros x. apply dom_insert_lookup_L. by rewrite Hs. }
  destruct (utc_from_timestamp stored) as [dt|e];
    [destruct (dt_lt dt now); [|destruct (plus_15_raises dt)]
    |destruct (isinstance e OverflowError_)]; simpl;
    repeat split; try done; eauto;
    try (intros k Hk; by rewrite lookup_insert_ne).
Qed.

(** ** Session cleanup, continued *)

Lemma live_sessions_lookup now (m : gmap string stamp) k v :
  live_sessions now m !! k = Some v
  ↔ m !! k = Some v ∧ is_live (view_expiry now v) = true.
Proof. unfold live_sessions. by rewrite map_lookup_filter_Some. Qed.

Lemma metadata_of_lookup (L : gmap string stamp)
    (sd : gmap string IngressSessionDataDict) k d :
  metadata_of L sd !! k = Some d
  ↔ sd !! k = Some d ∧ is_Some (L !! k) ∧ dict_truthy d = true.
Proof. unfold metadata_of. by rewrite map_lookup_filter_Some. Qed.

Lemma live_sessions_idemp now (m : gmap string stamp) :
  live_sessions now (live_sessions now m) = live_sessions now m.
Proof.
  apply map_eq. intros k. apply option_eq. intros v.
  rewrite !live_sessions_lookup. tauto.
Qed.

Lemma metadata_of_idemp (L : gmap string stamp)
    (sd : gmap string IngressSessionDataDict) :
  metadata_of L (metadata_of L sd) = metadata_of L sd.
Proof.
  apply map_eq. intros k. apply option_eq. intros d.
  rewrite !metadata_of_lookup. tauto.
Qed.

(** What the loop raises is what some conversion raised. *)
Lemma cleanup_loop_raise_origin now (old : gmap string IngressSessionDataDict)
    (m : gmap string stamp) e :
  map_fold (cleanup_step now old) (Ok (∅, ∅)) m = Raise e →
  isinstance e OverflowError_ = false
  ∧ ∃ k v, m !! k = Some v ∧ utc_from_timestamp v = Raise e.
Proof.
  revert e. revert m.
  apply (map_fold_weak_ind (fun r m => ∀ e, r = Raise e →
    isinstance e OverflowError_ = false
    ∧ ∃ k v, m !! k = Some v ∧ utc_from_timestamp v = Raise e)).
  - done.
  - intros i x m r Hi IH e. unfold cleanup_step.
    destruct r as [[ss sd]|e0].
    + destruct (utc_from_timestamp x) as [dt|e1] eqn:Hx.
      * destruct (dt_lt dt now); [done|].
        destruct (old !! i) as [d|]; [destruct (dict_truthy d)|]; done.
      * destruct (isinstance e1 OverflowError_) eqn:E; [done|].
        intros [= <-]. split; [done|].
        exists i, x. by rewrite lookup_insert_eq.
    + intros [= <-]. destruct (IH e0 eq_refl) as (Hno & k & v & Hk & Hv).
      split; [done|]. exists k, v. split; [|done].
      rewrite lookup_insert_ne; [done|]. intros ->. congruence.
Qed.

(** X4: when [_cleanup_sessions] returns, it has kept exactly the live
    sessions: an id is in the expiry table afterwards, with its stored
    value unchanged, exactly when it was there before and its expiry
    converts to a datetime that is not before now; an id has metadata
    afterwards exactly when it had truthy metadata before and its session
    is kept.  Ports, token index and I/O log are as before. *)
Theorem cleanup_sessions_exact now s s' :
  _cleanup_sessions now s = (Ok tt, s') →
  (∀ k v, sessions s' !! k = Some v
          ↔ sessions s !! k = Some v
            ∧ ∃ dt, utc_from_timestamp v = Ok dt ∧ dt_lt dt now = false)
  ∧ (∀ k d, sessions_data s' !! k = Some d
            ↔ sessions_data s !! k = Some d ∧ dict_truthy d = true
              ∧ is_Some (sessions s' !! k))
  ∧ ports s' = ports s ∧ tokens s' = tokens s ∧ io_log s' = io_log s.
Proof.
  intros [_ ->]%cleanup_sessions_ok_inv. simpl.
  split; [|split; [|done]].
  - intros k v. by rewrite live_sessions_lookup, is_live_true.
  - intros k d. rewrite metadata_of_lookup. tauto.
Qed.

(** X5: [_cleanup_sessions] is idempotent: a second pass at the same time
    on the state that a first pass has left returns as well and changes
    nothing. *)
Theorem cleanup_sessions_idempotent now s s' :
  _cleanup_sessions now s = (Ok tt, s') →
  _cleanup_sessions now s' = (Ok tt, s').
Proof.
  intros [_ ->]%cleanup_sessions_ok_inv.
  rewrite cleanup_sessions_ok.
  2:{ simpl. intros k v [_ Hl]%live_sessions_lookup.
      by destruct (view_expiry now v). }
  simpl. rewrite live_sessions_idemp, metadata_of_idemp. by destruct s.
Qed.

(** X6: [_cleanup_sessions] writes all or nothing.  When it raises, no
    table has changed, and the exception is the one that the conversion of
    some stored expiry raised, which is not an [OverflowError]. *)
Theorem cleanup_sessions_raise_atomic now s e s' :
  _cleanup_sessions now s = (Raise e, s') →
  s' = s
  ∧ isinstance e OverflowError_ = false
  ∧ ∃ k v, sessions s !! k = Some v ∧ utc_from_timestamp v = Raise e.
Proof.
  unfold _cleanup_sessions.
  destruct (map_fold _ _ _) as [[ss sd]|e0] eqn:E; [done|].
  intros [= <- <-]. split; [done|].
  by apply (cleanup_loop_raise_origin now (sessions_data s)).
Qed.

Lemma port_loop_frame o fuel :
  ∀ n port s p s1,
    port_loop o fuel n port s = Some (p, s1) →
    sessions s1 = sessions s ∧ sessions_data s1 = sessions_data s
    ∧ tokens s1 = tokens s ∧ ports s1 = ports s.
Proof.
  induction fuel as [|fuel IH]; intros n port s p s1 Hloop; [done|].
  simpl in Hloop. destruct port as [q|]; [|by apply IH in Hloop].
  destruct (port_assigned q (ports s)); [by apply IH in Hloop|].
  destruct (check_port o n q).
  - by apply IH in Hloop.
  - by injection Hloop as <- <-.
Qed.

Lemma validate_session_tables now session s :
  dom (sessions (snd (validate_session now session s))) = dom (sessions s)
  ∧ sessions_data (snd (validate_session now session s)) = sessions_data s.
Proof.
  unfold validate_session.
  destruct (sessions s !! session) as [stored|] eqn:Hs; [|done].
  assert (Hdom : ∀ x, dom (<[session := x]> (sessions s)) = dom (sessions s)).
  { intros x. apply dom_insert_lookup_L. by rewrite Hs. }
  destruct (utc_from_timestamp stored) as [dt|e];
    [destruct (dt_lt dt now); [|destruct (plus_15_raises dt)]
    |destruct (isinstance e OverflowError_)]; simpl;
    split; done.
Qed.

Lemma cleanup_sessions_raise_same now s e s' :
  _cleanup_sessions now s = (Raise e, s') → s' = s.
Proof.
  unfold _cleanup_sessions.
  destruct (map_fold _ _ _) as [[ss sd]|e0]; [done|]. by intros [= _ <-].
Qed.

Lemma cleanup_keeps_metadata_invariant now s :
  metadata_has_session s → metadata_has_session (snd (_cleanup_sessions now s)).
Proof.
  intros Hinv. destruct (_cleanup_sessions now s) as [[[]|e] s'] eqn:E.
  - apply cleanup_sessions_ok_inv in E as [_ ->]. simpl.
    intros k d. simpl. rewrite metadata_of_lookup. tauto.
  - apply cleanup_sessions_raise_same in E as ->. done.
Qed.

(** X7: a session with metadata always has an expiry.  Every call of a
    method of the registry keeps this, and a [_cleanup_sessions] that
    returns establishes it, whatever the tables held before. *)
Theorem metadata_invariant :
  (∀ s s', step s s' → metadata_has_session s → metadata_has_session s')
  ∧ (∀ now s s', _cleanup_sessions now s = (Ok tt, s') → metadata_has_session s').
Proof.
  split.
  - intros s s' Hstep Hinv.
    destruct Hstep as [o fuel slug s r s' Hget|slug s
      |now session data s|now session s|now installed s|now installed s].
    + unfold get_dynamic_port in Hget.
      destruct (ports s !! slug); [by injection Hget as <- <-|].
      destruct (port_loop o fuel 0 None s) as [[q s1]|] eqn:Hloop; [|done].
      injection Hget as <- <-.
      apply port_loop_frame in Hloop as (Hs & Hd & _).
      intros k d. simpl. rewrite Hs, Hd. apply Hinv.
    + unfold del_dynamic_port. by destruct (ports s !! slug).
    + unfold create_session. destruct data as [d0|]; intros k d Hd;
        simpl in *; (destruct (decide (session = k)) as [->|Hne];
          [rewrite lookup_insert_eq; eauto|]);
        rewrite lookup_insert_ne by done.
      * rewrite lookup_insert_ne in Hd by done. by apply (Hinv k d).
      * by apply (Hinv k d).
    + intros k d Hd.
      destruct (validate_session_tables now session s) as (Hdom & Hsd).
      rewrite Hsd in Hd. apply Hinv in Hd.
      apply elem_of_dom. rewrite Hdom. by apply elem_of_dom.
    + unfold load, _update_token_list.
      by apply cleanup_keeps_metadata_invariant.
    + unfold reload, _update_token_list.
      pose proof (cleanup_keeps_metadata_invariant now s Hinv) as Hc.
      by destruct (_cleanup_sessions now s) as [[[]|e] s1].
  - intros now s s' [_ ->]%cleanup_sessions_ok_inv.
    intros k d. simpl. rewrite metadata_of_lookup. tauto.
Qed.

End IngressSessionFacts.

(** ** The token index *)

Section IngressTokenFacts.
Context `{DT : DateTimeApi} `{SD : SessionDataApi}.
Implicit Types (s : Ingress) (installed : list Addon).

(** The index that [_update_token_list] builds from a list of add-ons. *)
Lemma update_token_list_snoc installed a s :
  tokens (snd (_update_token_list (installed ++ [a]) s))
  = match indexed_token a with
    | Some tok => <[tok := addon_slug a]>
                    (tokens (snd (_update_token_list installed s)))
    | None => tokens (snd (_update_token_list installed s))
    end.
Proof.
  unfold _update_token_list, addons, indexed_token. simpl.
  rewrite filter_app, foldl_app, filter_cons, filter_nil.
  destruct (with_ingress a); [rewrite decide_True by done|by rewrite decide_False by done].
  simpl. by destruct (token_truthy (ingress_token a)).
Qed.

Lemma update_token_list_lookup installed s tok slug :
  tokens (snd (_update_token_list installed s)) !! tok = Some slug →
  ∃ a, a ∈ installed ∧ indexed_token a = Some tok ∧ addon_slug a = slug.
Proof.
  induction installed as [|a installed IH] using rev_ind.
  - simpl. by rewrite lookup_empty.
  - rewrite update_token_list_snoc.
    destruct (indexed_token a) as [t|] eqn:Ha.
    + intros [[-> <-]|[_ H]]%lookup_insert_Some.
      * exists a. split; [apply elem_of_app; right; by left|done].
      * destruct (IH H) as (b & Hb & ?). exists b.
        split; [apply elem_of_app; by left|done].
    + intros H. destruct (IH H) as (b & Hb & ?). exists b.
      split; [apply elem_of_app; by left|done].
Qed.

Lemma update_token_list_last installed l1 a l2 s tok :
  installed = l1 ++ a :: l2 →
  indexed_token a = Some tok →
  (∀ b, b ∈ l2 → indexed_token b ≠ Some tok) →
  tokens (snd (_update_token_list installed s)) !! tok = Some (addon_slug a).
Proof.
  intros -> Ha. induction l2 as [|b l2 IH] using rev_ind; intros Hlast.
  - replace (l1 ++ [a]) with (l1 ++ [a]) by done.
    rewrite update_token_list_snoc, Ha. apply lookup_insert_eq.
  - replace (l1 ++ a :: l2 ++ [b]) with ((l1 ++ a :: l2) ++ [b])
      by (by rewrite <- app_assoc).
    rewrite update_token_list_snoc.
    assert (Hb : indexed_token b ≠ Some tok).
    { apply Hlast. apply elem_of_app. right. by left. }
    assert (IH' : tokens (snd (_update_token_list (l1 ++ a :: l2) s)) !! tok
                  = Some (addon_slug a)).
    { apply IH. intros c Hc. apply Hlast. apply elem_of_app. by left. }
    destruct (indexed_token b) as [t|]; [|done].
    rewrite lookup_insert_ne; [done|]. intros ->. by apply Hb.
Qed.

Lemma update_token_list_none installed s tok :
  (∀ a, a ∈ installed → indexed_token a ≠ Some tok) →
  tokens (snd (_update_token_list installed s)) !! tok = None.
Proof.
  intros Hnone.
  destruct (tokens (snd (_update_token_list installed s)) !! tok) as [slug|] eqn:E;
    [|done].
  apply update_token_list_lookup in E as (a & Ha & Ht & _).
  by destruct (Hnone a Ha).
Qed.

Lemma update_token_list_some installed s a tok :
  a ∈ installed → indexed_token a = Some tok →
  is_Some (tokens (snd (_update_token_list installed s)) !! tok).
Proof.
  intros Ha Ht. induction installed as [|b installed IH] using rev_ind.
  - by apply elem_of_nil in Ha.
  - rewrite update_token_list_snoc.
    apply elem_of_app in Ha as [Ha|Ha].
    + destruct (indexed_token b) as [t|]; [|by apply IH].
      rewrite lookup_insert_is_Some.
      destruct (decide (t = tok)); [by left|right; split; [done|by apply IH]].
    + apply list_elem_of_singleton in Ha as ->.
      rewrite Ht, lookup_insert_eq. eauto.
Qed.

(** X8: after [_update_token_list] the keys of the token index are exactly
    the non-empty ingress tokens of the installed add-ons with ingress, and
    every value is the slug of such an add-on.  The index is rebuilt from
    nothing: it does not depend on the index before the call, and the
    session tables, the ports and the I/O log are not touched. *)
Theorem update_token_list_exact installed s :
  (∀ tok, is_Some (tokens (snd (_update_token_list installed s)) !! tok)
          ↔ ∃ a, a ∈ installed ∧ indexed_token a = Some tok)
  ∧ (∀ tok slug,
       tokens (snd (_update_token_list installed s)) !! tok = Some slug →
       ∃ a, a ∈ installed ∧ indexed_token a = Some tok ∧ addon_slug a = slug)
  ∧ (∀ t, tokens (snd (_update_token_list installed (set_tokens t s)))
          = tokens (snd (_update_token_list installed s)))
  ∧ sessions (snd (_update_token_list installed s)) = sessions s
  ∧ sessions_data (snd (_update_token_list installed s)) = sessions_data s
  ∧ ports (snd (_update_token_list installed s)) = ports s
  ∧ io_log (snd (_update_token_list installed s)) = io_log s.
Proof.
  split; [|split; [apply update_token_list_lookup|done]].
  intros tok. split.
  - intros [slug Hs]. apply update_token_list_lookup in Hs as (a & Ha & Ht & _).
    eauto.
  - intros (a & Ha & Ht). by apply (update_token_list_some installed s a).
Qed.

(** X9: [get] after [_update_token_list].  A token that no installed
    add-on with ingress carries resolves to nothing; any other token
    resolves to what the add-on manager returns for the slug of the last
    installed add-on that carries it, which is nothing when the manager
    does not know that slug. *)
Theorem get_after_update_token_list get_local_only installed s tok :
  ((∀ a, a ∈ installed → indexed_token a ≠ Some tok) →
   get get_local_only tok (snd (_update_token_list installed s)) = None)
  ∧ (∀ l1 a l2,
       installed = l1 ++ a :: l2 →
       indexed_token a = Some tok →
       (∀ b, b ∈ l2 → indexed_token b ≠ Some tok) →
       get get_local_only tok (snd (_update_token_list installed s))
       = get_local_only (addon_slug a)).
Proof.
  unfold get. split.
  - intros Hnone. by rewrite update_token_list_none.
  - intros l1 a l2 Hl Ha Hlast.
    by rewrite (update_token_list_last installed l1 a l2 s tok Hl Ha Hlast).
Qed.

End IngressTokenFacts.

(** ** Dynamic ports, continued *)

Section IngressPortFacts.
Context `{DT : DateTimeApi} `{SD : SessionDataApi}.
Implicit Types (s : Ingress).

(** The probes of the loop: each one is for a draw of the range that was
    not assigned, and the last one is for the port that the loop returns. *)
Lemma port_loop_log o fuel :
  ∀ n port s p s1,
    drawn o n port →
    port_loop o fuel n port s = Some (p, s1) →
    ∃ probed,
      io_log s1 = io_log s ++ (CheckPort <$> probed)
      ∧ last probed = Some p
      ∧ Forall (fun q => PORT_MIN ≤ q ≤ PORT_MAX
                         ∧ port_assigned q (ports s) = false) probed.
Proof.
  induction fuel as [|fuel IH]; intros n port s p s1 Hd Hloop; [done|].
  simpl in Hloop. destruct port as [q|].
  - destruct Hd as (m & -> & ->).
    destruct (port_assigned (randint PORT_MIN PORT_MAX (entropy o m)) (ports s))
      eqn:Ha.
    + apply IH in Hloop; [done|]. by exists (S m).
    + destruct (check_port o (S m) _) eqn:Hc.
      * apply IH in Hloop as (probed & Hlog & Hlast & Hall); [|by exists (S m)].
        exists (randint PORT_MIN PORT_MAX (entropy o m) :: probed).
        simpl in Hlog. rewrite <- app_assoc in Hlog.
        split; [done|]. split.
        -- destruct probed; [done|done].
        -- constructor; [|done]. split; [apply randint_range|done].
      * injection Hloop as <- <-.
        exists [randint PORT_MIN PORT_MAX (entropy o m)].
        split; [done|]. split; [done|].
        constructor; [|done]. split; [apply randint_range|done].
  - apply IH in Hloop; [done|]. by exists n.
Qed.

(** X10: what an allocation by [get_dynamic_port] does.  The port table
    gains the one entry of the workload and keeps every other entry; the
    session tables and the token index are untouched; the I/O of the call
    is a run of probes, each for a port of the range that no workload
    held, the last of them for the port that is returned, and then exactly
    one save. *)
Theorem get_dynamic_port_effects o fuel slug s port s' :
  ports s !! slug = None →
  get_dynamic_port o fuel slug s = Some (Ok port, s') →
  ports s' = <[slug := port]> (ports s)
  ∧ (∀ w, w ≠ slug → ports s' !! w = ports s !! w)
  ∧ sessions s' = sessions s ∧ sessions_data s' = sessions_data s
  ∧ tokens s' = tokens s
  ∧ ∃ probed,
      io_log s' = io_log s ++ (CheckPort <$> probed) ++ [SaveData]
      ∧ last probed = Some port
      ∧ Forall (fun q => PORT_MIN ≤ q ≤ PORT_MAX
                         ∧ port_assigned q (ports s) = false) probed.
Proof.
  intros Hfree. unfold get_dynamic_port. rewrite Hfree.
  destruct (port_loop o fuel 0 None s) as [[q s1]|] eqn:Hloop; [|done].
  intros [= <- <-].
  destruct (port_loop_frame o fuel _ _ _ _ _ Hloop) as (Hs & Hd & Ht & Hp).
  destruct (port_loop_log o fuel 0%nat None s q s1 I Hloop)
    as (probed & Hlog & Hlast & Hall).
  simpl. rewrite Hp. split; [done|].
  split; [intros w Hw; by rewrite lookup_insert_ne|].
  split; [done|]. split; [done|]. split; [done|].
  exists probed. rewrite Hlog, <- app_assoc. done.
Qed.

(** X11: [del_dynamic_port] always returns; afterwards the workload has no
    port and every other workload has the port it had.  For a workload
    without a port the call changes nothing and does no I/O; otherwise it
    saves once.  A second call right after is such a no-op. *)
Theorem del_dynamic_port_effects slug s :
  fst (del_dynamic_port slug s) = Ok tt
  ∧ ports (snd (del_dynamic_port slug s)) !! slug = None
  ∧ (∀ w, w ≠ slug →
          ports (snd (del_dynamic_port slug s)) !! w = ports s !! w)
  ∧ (ports s !! slug = None → snd (del_dynamic_port slug s) = s)
  ∧ (is_Some (ports s !! slug) →
     io_log (snd (del_dynamic_port slug s)) = io_log s ++ [SaveData])
  ∧ del_dynamic_port slug (snd (del_dynamic_port slug s))
    = (Ok tt, snd (del_dynamic_port slug s)).
Proof.
  unfold del_dynamic_port.
  destruct (ports s !! slug) as [q|] eqn:Hs; simpl.
  - rewrite lookup_delete_eq. repeat split; try done.
    intros w Hw. by rewrite lookup_delete_ne.
  - rewrite Hs. repeat split; try done.
Qed.

(** X12: allocating a port for a workload that had none and deleting it
    again gives back the port table as it was, so that the port is free for
    any workload; the two calls leave two saves in the I/O log. *)
Theorem get_then_del_dynamic_port o fuel slug s port s' :
  ports s !! slug = None →
  get_dynamic_port o fuel slug s = Some (Ok port, s') →
  ports (snd (del_dynamic_port slug s')) = ports s
  ∧ port_assigned port (ports (snd (del_dynamic_port slug s'))) = false
  ∧ last (io_log (snd (del_dynamic_port slug s'))) = Some SaveData.
Proof.
  intros Hfree Hget.
  assert (Hp : ports s' = <[slug := port]> (ports s)).
  { unfold get_dynamic_port in Hget. rewrite Hfree in Hget.
    destruct (port_loop o fuel 0 None s) as [[q s1]|] eqn:Hloop; [|done].
    injection Hget as <- <-.
    apply port_loop_frame in Hloop as (_ & _ & _ & Hp). simpl. by rewrite Hp. }
  assert (Hfree' : port_assigned port (ports s) = false).
  { unfold get_dynamic_port in Hget. rewrite Hfree in Hget.
    destruct (port_loop o fuel 0 None s) as [[q s1]|] eqn:Hloop; [|done].
    injection Hget as <- <-.
    by apply port_loop_sound in Hloop as (Ha & _). }
  unfold del_dynamic_port. rewrite Hp, lookup_insert_eq. simpl.
  rewrite delete_insert_id by done.
  split; [done|]. split; [done|]. by rewrite last_snoc.
Qed.

End IngressPortFacts.

(** ** How the calls compose *)

Section IngressComposeFacts.
Context `{DT : DateTimeApi} `{SD : SessionDataApi}.
Implicit Types (s : Ingress) (now : datetime) (session : string).

(** X19: the window slides from deadline to deadline.  Two successful
    calls of [validate_session], on deadlines to which 15 minutes can be
    added within the range of [datetime], move the expiry by 15 minutes
    twice, starting from the stored deadline; the times of the two calls
    only decide whether the session is still live, they do not enter the
    new expiry. *)
Theorem validate_session_twice now1 now2 session s stored dt1 dt2 :
  sessions s !! session = Some stored →
  utc_from_timestamp stored = Ok dt1 →
  dt_lt dt1 now1 = false →
  plus_15_raises dt1 = false →
  utc_from_timestamp (timestamp (plus_15_minutes dt1)) = Ok dt2 →
  dt_lt dt2 now2 = false →
  plus_15_raises dt2 = false →
  fst (validate_session now2 session (snd (validate_session now1 session s)))
  = Ok true
  ∧ sessions (snd (validate_session now2 session
                     (snd (validate_session now1 session s)))) !! session
    = Some (timestamp (plus_15_minutes dt2)).
Proof.
  intros Hs H1 Hl1 Ha1 H2 Hl2 Ha2.
  assert (Hv : validate_session now1 session s
               = (Ok true,
                  set_sessions
                    (<[session := timestamp (plus_15_minutes dt1)]> (sessions s)) s)).
  { unfold validate_session. by rewrite Hs, H1, Hl1, Ha1. }
  rewrite Hv. simpl. unfold validate_session. simpl.
  rewrite lookup_insert_eq, H2, Hl2, Ha2. simpl.
  split; [done|]. apply lookup_insert_eq.
Qed.

(** X20: [load] and [reload] work in memory only.  Neither touches the
    port table or does any I/O, so a cleanup is not saved by the call
    itself.  After [load] the token index is the rebuilt one even when the
    cleanup raises; after [reload] it is the rebuilt one when the cleanup
    returns. *)
Theorem load_reload_in_memory now installed s :
  ports (snd (load now installed s)) = ports s
  ∧ io_log (snd (load now installed s)) = io_log s
  ∧ ports (snd (reload now installed s)) = ports s
  ∧ io_log (snd (reload now installed s)) = io_log s
  ∧ tokens (snd (load now installed s))
    = tokens (snd (_update_token_list installed s))
  ∧ (is_ok (fst (_cleanup_sessions now s)) = true →
     tokens (snd (reload now installed s))
     = tokens (snd (_update_token_list installed s))).
Proof.
  unfold load, reload, _update_token_list. cbn [fst snd].
  rewrite cleanup_sessions_set_tokens.
  assert (Hframe : ports (snd (_cleanup_sessions now s)) = ports s
                   ∧ io_log (snd (_cleanup_sessions now s)) = io_log s
                   ∧ tokens (snd (_cleanup_sessions now s)) = tokens s).
  { unfold _cleanup_sessions. by destruct (map_fold _ _ _) as [[ss sd]|e]. }
  destruct Hframe as (Hp & Hl & Ht).
  destruct (_cleanup_sessions now s) as [[[]|e] s1]; simpl in *;
    repeat split; done.
Qed.

(** X21: two workloads never share a port after two calls in a row.  On a
    sound port table, the ports that [get_dynamic_port] returns for two
    different workloads, one call after the other, differ, and both
    workloads hold their port afterwards. *)
Theorem get_dynamic_port_distinct o1 o2 fuel1 fuel2 w1 w2 s p1 s1 p2 s2 :
  ports_ok (ports s) →
  w1 ≠ w2 →
  get_dynamic_port o1 fuel1 w1 s = Some (Ok p1, s1) →
  get_dynamic_port o2 fuel2 w2 s1 = Some (Ok p2, s2) →
  p1 ≠ p2 ∧ ports s2 !! w1 = Some p1 ∧ ports s2 !! w2 = Some p2.
Proof.
  intros Hok Hw H1 H2.
  assert (Hheld : ∀ o fuel w t p t',
            get_dynamic_port o fuel w t = Some (Ok p, t') →
            ports t' !! w = Some p
            ∧ ∀ w', w' ≠ w → ports t' !! w' = ports t !! w').
  { intros o fuel w t p t' Hget. unfold get_dynamic_port in Hget.
    destruct (ports t !! w) as [q|] eqn:Ht; [by injection Hget as <- <-|].
    destruct (port_loop o fuel 0 None t) as [[q t1]|] eqn:Hloop; [|done].
    injection Hget as <- <-.
    apply port_loop_frame in Hloop as (_ & _ & _ & Hp). simpl. rewrite Hp.
    split; [apply lookup_insert_eq|].
    intros w' Hw'. by rewrite lookup_insert_ne. }
  destruct (Hheld _ _ _ _ _ _ H1) as (Hp1 & _).
  destruct (Hheld _ _ _ _ _ _ H2) as (Hp2 & Hother).
  assert (Hp1' : ports s2 !! w1 = Some p1) by (by rewrite Hother).
  assert (Hok2 : ports_ok (ports s2)).
  { eapply get_dynamic_port_ports_ok; [|exact H2].
    eapply get_dynamic_port_ports_ok; [exact Hok|exact H1]. }
  split; [|done].
  intros <-. destruct Hok2 as [Hinj _]. by apply Hw, (Hinj w1 w2 p1).
Qed.

End IngressComposeFacts.

(** * Further properties of the plugin manager *)

Section PluginManagerReportFacts.
Import PluginManager.
Implicit Types (env : Env) (p : plugin).

Lemma concat_fmap_omap {A B} (h : A → list B) (g : A → option B) (l : list A) :
  (∀ x, h x = option_list (g x)) → concat (h <$> l) = omap g l.
Proof.
  intros Hh. induction l as [|x l IH]; [done|].
  rewrite fmap_cons. cbn [concat]. rewrite IH, Hh. simpl.
  by destruct (g x).
Qed.

Lemma concat_fmap_nil {A B} (h : A → list B) (l : list A) :
  (∀ x, h x = []) → concat (h <$> l) = [].
Proof.
  intros Hh. induction l as [|x l IH]; [done|].
  rewrite fmap_cons. cbn [concat]. by rewrite IH, Hh.
Qed.

(** X13: the issues that [load] creates are, in this order, one
    fatal-error issue (suggestion: execute repair) for each plugin whose
    load raised and then, unless the supervisor needs an update, one
    update-failed issue (suggestion: execute update) for each plugin that
    needed an update and whose update raised a [HassioError].  An update
    that fails with any other exception creates no issue. *)
Theorem load_issues_exact env :
  issues (trace (load env))
  = omap (load_issue env) all_plugins
    ++ (if supervisor_need_update env then []
        else omap (update_issue env) all_plugins).
Proof.
  rewrite load_unfold. cbn [trace]. unfold issues. rewrite omap_app.
  rewrite omap_concat_fmap. f_equal.
  - apply concat_fmap_omap. intros p. rewrite load_body_cases.
    unfold load_issue. by destruct (plugin_load env p).
  - destruct (supervisor_need_update env); [done|].
    rewrite omap_concat_fmap. apply concat_fmap_omap. intros p.
    rewrite update_body_cases. unfold update_issue.
    destruct (plugin_need_update env p); [|done].
    destruct (plugin_update env p) as [|e]; [done|].
    by destruct (isinstance e HassioError_).
Qed.

(** X14: the exceptions that [load] hands to the crash telemetry are, in
    this order, what the loads raised and then, unless the supervisor
    needs an update, what the updates raised that is not a [HassioError].
    A [HassioError] of an update never reaches the telemetry. *)
Theorem load_captured_exact env :
  captured (trace (load env))
  = omap (load_capture env) all_plugins
    ++ (if supervisor_need_update env then []
        else omap (update_capture env) all_plugins).
Proof.
  rewrite load_unfold. cbn [trace]. unfold captured. rewrite omap_app.
  rewrite omap_concat_fmap. f_equal.
  - apply concat_fmap_omap. intros p. rewrite load_body_cases.
    unfold load_capture. by destruct (plugin_load env p).
  - destruct (supervisor_need_update env); [done|].
    rewrite omap_concat_fmap. apply concat_fmap_omap. intros p.
    rewrite update_body_cases. unfold update_capture.
    destruct (plugin_need_update env p); [|done].
    destruct (plugin_update env p) as [|e]; [done|].
    by destruct (isinstance e HassioError_).
Qed.

(** X15: [load] works in two phases.  Its trace is a first part with the
    five load calls and no update call, followed by a second part with no
    load call: no plugin is updated before every plugin has had its load
    attempt.  [load] never stops a plugin. *)
Theorem load_phases env :
  ∃ t1 t2,
    trace (load env) = t1 ++ t2
    ∧ load_calls t1 = all_plugins ∧ update_calls t1 = []
    ∧ load_calls t2 = []
    ∧ stop_calls (trace (load env)) = [].
Proof.
  rewrite load_unfold. cbn [trace].
  assert (Hl : ∀ l, load_calls (concat ((fun p => trace (load_body env p)) <$> l)) = l).
  { intros l. unfold load_calls. rewrite omap_concat_fmap.
    rewrite (concat_fmap_omap _ Some).
    - induction l as [|x l IH]; [done|]. simpl. f_equal. apply IH.
    - intros p. rewrite load_body_cases. by destruct (plugin_load env p). }
  assert (Hu : ∀ l, update_calls (concat ((fun p => trace (load_body env p)) <$> l)) = []).
  { intros l. unfold update_calls. rewrite omap_concat_fmap.
    apply concat_fmap_nil. intros p. rewrite load_body_cases.
    by destruct (plugin_load env p). }
  assert (Hl2 : ∀ l, load_calls (concat ((fun p => trace (update_body env p)) <$> l)) = []).
  { intros l. unfold load_calls. rewrite omap_concat_fmap.
    apply concat_fmap_nil. intros p. rewrite update_body_cases.
    destruct (plugin_need_update env p); [|done].
    destruct (plugin_update env p) as [|e]; [done|].
    by destruct (isinstance e HassioError_). }
  assert (Hs1 : ∀ l, stop_calls (concat ((fun p => trace (load_body env p)) <$> l)) = []).
  { intros l. unfold stop_calls. rewrite omap_concat_fmap.
    apply concat_fmap_nil. intros p. rewrite load_body_cases.
    by destruct (plugin_load env p). }
  assert (Hs2 : ∀ l, stop_calls (concat ((fun p => trace (update_body env p)) <$> l)) = []).
  { intros l. unfold stop_calls. rewrite omap_concat_fmap.
    apply concat_fmap_nil. intros p. rewrite update_body_cases.
    destruct (plugin_need_update env p); [|done].
    destruct (plugin_update env p) as [|e]; [done|].
    by destruct (isinstance e HassioError_). }
  eexists _, _. split; [done|]. split; [apply Hl|]. split; [apply Hu|].
  split.
  - destruct (supervisor_need_update env); [done|apply Hl2].
  - unfold stop_calls in *. rewrite omap_app, Hs1.
    destruct (supervisor_need_update env); [done|apply Hs2].
Qed.

(** X16: when no load raises and no update is due (the supervisor needs an
    update itself, or no plugin does), [load] does the five load calls and
    nothing else: no log line, no issue, no telemetry. *)
Theorem load_quiet env :
  (∀ p, is_ok (plugin_load env p) = true) →
  supervisor_need_update env = true ∨ (∀ p, plugin_need_update env p = false) →
  trace (load env) = CallLoad <$> all_plugins.
Proof.
  intros Hok Hnone. rewrite load_unfold. cbn [trace].
  assert (H1 : concat ((fun p => trace (load_body env p)) <$> all_plugins)
               = CallLoad <$> all_plugins).
  { generalize all_plugins. induction l as [|x l IH]; [done|].
    rewrite !fmap_cons. cbn [concat]. rewrite IH, load_body_cases.
    specialize (Hok x). by destruct (plugin_load env x). }
  rewrite H1.
  destruct (supervisor_need_update env); [by rewrite app_nil_r|].
  destruct Hnone as [?|Hnone]; [done|].
  rewrite concat_fmap_nil; [by rewrite app_nil_r|].
  intros p. by rewrite update_body_cases, Hnone.
Qed.

(** X17: what [shutdown] leaves behind.  The exceptions handed to the
    crash telemetry are what the stops of cli, dns, audio and multicast
    raised, in this order, and there is one warning, in the same order,
    for each of them; [shutdown] never loads or updates a plugin. *)
Theorem shutdown_reports_exact env :
  captured (trace (shutdown env))
  = omap (stop_capture env) [Cli; Dns; Audio; Multicast]
  ∧ warnings (trace (shutdown env))
    = omap (fun p => (fun _ => slug p) <$> stop_capture env p)
           [Cli; Dns; Audio; Multicast]
  ∧ load_calls (trace (shutdown env)) = []
  ∧ update_calls (trace (shutdown env)) = [].
Proof.
  rewrite shutdown_unfold. cbn [trace].
  unfold captured, warnings, load_calls, update_calls.
  rewrite !omap_concat_fmap.
  split; [|split; [|split]].
  - apply concat_fmap_omap. intros p. rewrite shutdown_body_cases.
    unfold stop_capture. by destruct (plugin_stop env p).
  - apply concat_fmap_omap. intros p. rewrite shutdown_body_cases.
    unfold stop_capture. by destruct (plugin_stop env p).
  - apply concat_fmap_nil. intros p. rewrite shutdown_body_cases.
    by destruct (plugin_stop env p).
  - apply concat_fmap_nil. intros p. rewrite shutdown_body_cases.
    by destruct (plugin_stop env p).
Qed.

End PluginManagerReportFacts.

(** * The further properties on concrete inputs *)

Section IngressMoreInstances.

(** A session made at [NOW] and checked a minute later. *)
Lemma create_then_validate_witness :
  fst (validate (NOW + 60) "s1"
         (snd (create_session (DT:=ZTime) (SD:=FlatData) NOW "s1"
                 (Some [("user", "u")]) empty_ingress)))
  = Ok true
  ∧ sessions (snd (validate (NOW + 60) "s1"
                     (snd (create_session (DT:=ZTime) (SD:=FlatData) NOW "s1"
                             (Some [("user", "u")]) empty_ingress)))) !! "s1"
    = Some (NOW + 900 + 900).
Proof.
  assert (Hconv : utc_from_timestamp (DateTimeApi:=ZTime) (NOW + 900)
                  = Ok (NOW + 900))
    by (vm_compute; reflexivity).
  assert (Hlive : dt_lt (DateTimeApi:=ZTime) (NOW + 900) (NOW + 60) = false)
    by (vm_compute; reflexivity).
  assert (Hadd : plus_15_raises (DateTimeApi:=ZTime) (NOW + 900) = false)
    by (vm_compute; reflexivity).
  exact (proj2 (create_then_validate (DT:=ZTime) (SD:=FlatData) NOW (NOW + 60)
                  "s1" (Some [("user", "u")]) empty_ingress (NOW + 900)
                  Hconv Hlive Hadd)).
Defined.

Lemma create_session_effects_witness :
  get_session_data "s1"
    (snd (create_session (DT:=ZTime) (SD:=FlatData) NOW "s1"
            (Some [("user", "u")]) sample_ingress))
  = Some [("user", "u")]
  ∧ sessions (snd (create_session (DT:=ZTime) (SD:=FlatData) NOW "s1"
                     (Some [("user", "u")]) sample_ingress)) !! "c"
    = sessions sample_ingress !! "c"
  ∧ sessions_data (snd (create_session (DT:=ZTime) (SD:=FlatData) NOW "s1"
                          None sample_ingress))
    = sessions_data sample_ingress.
Proof.
  split; [|split].
  - apply (proj1 (proj2 (proj2 (create_session_effects (DT:=ZTime) (SD:=FlatData)
                                  NOW "s1" (Some [("user", "u")]) sample_ingress)))
             [("user", "u")] eq_refl).
    reflexivity.
  - apply (proj1 (proj2 (create_session_effects (DT:=ZTime) (SD:=FlatData)
                           NOW "s1" (Some [("user", "u")]) sample_ingress))).
    discriminate.
  - apply (proj1 (proj2 (proj2 (proj2 (create_session_effects (DT:=ZTime)
             (SD:=FlatData) NOW "s1" None sample_ingress))))).
    reflexivity.
Defined.

Lemma validate_session_frame_witness :
  fst (validate NOW "c" sample_ingress) = Ok true
  ∧ is_Some (sessions sample_ingress !! "c")
  ∧ sessions (snd (validate NOW "c" sample_ingress)) !! "b"
    = sessions sample_ingress !! "b".
Proof.
  assert (Hc : fst (validate NOW "c" sample_ingress) = Ok true)
    by (vm_compute; reflexivity).
  destruct (validate_session_frame (DT:=ZTime) (SD:=FlatData) NOW "c" sample_ingress)
    as (_ & Hother & _ & _ & _ & _ & Hknown).
  split; [exact Hc|]. split; [exact (Hknown Hc)|].
  apply Hother. discriminate.
Defined.

Lemma cleanup_sample_returns :
  cleanup NOW sample_ingress = (Ok tt, snd (cleanup NOW sample_ingress)).
Proof. apply pair_fst_eta. vm_compute; reflexivity. Defined.

(** The cleanup of [sample_ingress]: the live session [c] stays with its
    metadata, the expired session [b] goes. *)
Lemma cleanup_sessions_exact_witness :
  sessions (snd (cleanup NOW sample_ingress)) !! "c" = Some 1700000600
  ∧ sessions_data (snd (cleanup NOW sample_ingress)) !! "c"
    = Some [("user", "carol")]
  ∧ sessions (snd (cleanup NOW sample_ingress)) !! "b" ≠ Some 1600000000.
Proof.
  destruct (cleanup_sessions_exact (DT:=ZTime) (SD:=FlatData) NOW sample_ingress
              _ cleanup_sample_returns) as (Hs & Hd & _).
  assert (Hc : sessions (snd (cleanup NOW sample_ingress)) !! "c" = Some 1700000600).
  { apply Hs. split; [vm_compute; reflexivity|].
    exists 1700000600. split; vm_compute; reflexivity. }
  split; [exact Hc|]. split.
  - apply Hd. split; [vm_compute; reflexivity|]. split; [reflexivity|].
    exists 1700000600. exact Hc.
  - intros Hb. apply Hs in Hb as (_ & dt & Hconv & Hlt).
    vm_compute in Hconv. injection Hconv as <-. vm_compute in Hlt. discriminate.
Defined.

Lemma cleanup_sessions_idempotent_witness :
  cleanup NOW (snd (cleanup NOW sample_ingress))
  = (Ok tt, snd (cleanup NOW sample_ingress)).
Proof.
  exact (cleanup_sessions_idempotent (DT:=ZTime) (SD:=FlatData) NOW sample_ingress
           _ cleanup_sample_returns).
Defined.

(** The cleanup of [corrupt_ingress] raises the [ValueError] of session
    [a] and leaves the state alone. *)
Lemma cleanup_sessions_raise_atomic_witness :
  snd (cleanup NOW corrupt_ingress) = corrupt_ingress
  ∧ isinstance (mkExc ValueError_ "year is out of range") OverflowError_ = false.
Proof.
  assert (Hrun : cleanup NOW corrupt_ingress
                 = (Raise (mkExc ValueError_ "year is out of range"),
                    snd (cleanup NOW corrupt_ingress))).
  { apply pair_fst_eta. vm_compute; reflexivity. }
  destruct (cleanup_sessions_raise_atomic (DT:=ZTime) (SD:=FlatData) NOW
              corrupt_ingress _ _ Hrun) as (Hsame & Hno & _).
  split; [exact Hsame|exact Hno].
Defined.

(** The state after the cleanup of [sample_ingress] satisfies the
    invariant, and so does the state after a further [create_session]. *)
Lemma metadata_invariant_witness :
  metadata_has_session (snd (cleanup NOW sample_ingress))
  ∧ metadata_has_session
      (snd (create_session (DT:=ZTime) (SD:=FlatData) NOW "s1"
              (Some [("user", "u")]) (snd (cleanup NOW sample_ingress)))).
Proof.
  destruct (metadata_invariant (DT:=ZTime) (SD:=FlatData)) as (Hstep & Hclean).
  assert (H1 : metadata_has_session (snd (cleanup NOW sample_ingress)))
    by exact (Hclean NOW sample_ingress _ cleanup_sample_returns).
  split; [exact H1|].
  apply (Hstep (snd (cleanup NOW sample_ingress))); [|exact H1].
  apply step_create_session.
Defined.

(** The index of [three_addons]: [tok_x] is a key, the token of the add-on
    without ingress and the empty token are not. *)
Lemma update_token_list_exact_witness :
  is_Some (tokens (snd (_update_token_list (DT:=ZTime) (SD:=FlatData)
                          three_addons empty_ingress)) !! "tok_x")
  ∧ ¬ is_Some (tokens (snd (_update_token_list (DT:=ZTime) (SD:=FlatData)
                              three_addons empty_ingress)) !! "tok_y")
  ∧ ¬ is_Some (tokens (snd (_update_token_list (DT:=ZTime) (SD:=FlatData)
                              three_addons empty_ingress)) !! EmptyString).
Proof.
  destruct (update_token_list_exact (DT:=ZTime) (SD:=FlatData)
              three_addons empty_ingress) as (Hkeys & _).
  split; [|split].
  - apply Hkeys. exists (mkAddon "addon_x" true (Some "tok_x")).
    split; [repeat constructor|reflexivity].
  - intros (a & Ha & Ht)%Hkeys. unfold three_addons in Ha.
    rewrite !elem_of_cons in Ha.
    destruct Ha as [->|[->|[->|Ha]]];
      [discriminate Ht|discriminate Ht|discriminate Ht|by apply elem_of_nil in Ha].
  - intros (a & Ha & Ht)%Hkeys. unfold three_addons in Ha.
    rewrite !elem_of_cons in Ha.
    destruct Ha as [->|[->|[->|Ha]]];
      [discriminate Ht|discriminate Ht|discriminate Ht|by apply elem_of_nil in Ha].
Defined.

(** [get] on the index of [three_addons], with the add-on manager that
    knows the three of them. *)
Lemma get_after_update_token_list_witness :
  get (registry_of three_addons) "tok_x"
    (snd (_update_token_list (DT:=ZTime) (SD:=FlatData) three_addons empty_ingress))
  = Some (mkAddon "addon_x" true (Some "tok_x"))
  ∧ get (registry_of three_addons) "tok_y"
      (snd (_update_token_list (DT:=ZTime) (SD:=FlatData) three_addons empty_ingress))
    = None.
Proof.
  split.
  - etrans.
    + apply (proj2 (get_after_update_token_list (DT:=ZTime) (SD:=FlatData)
                      (registry_of three_addons) three_addons empty_ingress "tok_x")
               [] (mkAddon "addon_x" true (Some "tok_x"))
               [mkAddon "addon_y" false (Some "tok_y");
                mkAddon "addon_z" true (Some EmptyString)]);
        [reflexivity|reflexivity|].
      intros b Hb. rewrite !elem_of_cons in Hb.
      destruct Hb as [->|[->|Hb]]; [discriminate|discriminate|by apply elem_of_nil in Hb].
    + reflexivity.
  - apply (proj1 (get_after_update_token_list (DT:=ZTime) (SD:=FlatData)
                    (registry_of three_addons) three_addons empty_ingress "tok_y")).
    intros a Ha. unfold three_addons in Ha. rewrite !elem_of_cons in Ha.
    destruct Ha as [->|[->|[->|Ha]]];
      [discriminate|discriminate|discriminate|by apply elem_of_nil in Ha].
Defined.

(** The allocation on the network where only 63210 is free. *)
Lemma get_dynamic_port_effects_witness :
  ∃ s1, get_port only_63210 4 "addon_x" empty_ingress = Some (Ok 63210, s1)
        ∧ ports s1 = <["addon_x" := 63210]> (ports empty_ingress)
        ∧ sessions s1 = sessions empty_ingress.
Proof.
  destruct get_dynamic_port_63210 as (s1 & Hget & _).
  assert (Hfree : ports empty_ingress !! "addon_x" = None)
    by (vm_compute; reflexivity).
  destruct (get_dynamic_port_effects (DT:=ZTime) (SD:=FlatData) only_63210 4
              "addon_x" empty_ingress 63210 s1 Hfree Hget) as (Hp & _ & Hs & _).
  exists s1. split; [exact Hget|]. split; [exact Hp|exact Hs].
Defined.

Lemma del_dynamic_port_effects_witness :
  ports (snd (del_dynamic_port "addon_y" sample_ingress)) !! "addon_y" = None
  ∧ io_log (snd (del_dynamic_port "addon_y" sample_ingress))
    = io_log sample_ingress ++ [SaveData]
  ∧ snd (del_dynamic_port "addon_x" sample_ingress) = sample_ingress.
Proof.
  split; [|split].
  - apply (del_dynamic_port_effects (DT:=ZTime) (SD:=FlatData) "addon_y" sample_ingress).
  - apply (del_dynamic_port_effects (DT:=ZTime) (SD:=FlatData) "addon_y" sample_ingress).
    vm_compute; eauto.
  - apply (del_dynamic_port_effects (DT:=ZTime) (SD:=FlatData) "addon_x" sample_ingress).
    vm_compute; reflexivity.
Defined.

Lemma get_then_del_dynamic_port_witness :
  ∃ s1, get_port only_63210 4 "addon_x" empty_ingress = Some (Ok 63210, s1)
        ∧ ports (snd (del_dynamic_port "addon_x" s1)) = ports empty_ingress.
Proof.
  destruct get_dynamic_port_63210 as (s1 & Hget & _).
  assert (Hfree : ports empty_ingress !! "addon_x" = None)
    by (vm_compute; reflexivity).
  exists s1. split; [exact Hget|].
  exact (proj1 (get_then_del_dynamic_port (DT:=ZTime) (SD:=FlatData) only_63210 4
                  "addon_x" empty_ingress 63210 s1 Hfree Hget)).
Defined.

(** On the network where only 63210 is free the third draw, number 2, is
    the first free one, and four evaluations of the condition suffice. *)
Lemma get_dynamic_port_returns_witness :
  randint PORT_MIN PORT_MAX (entropy only_63210 2) = 63210
  ∧ ∃ s', get_port only_63210 4 "addon_x" empty_ingress
          = Some (Ok (randint PORT_MIN PORT_MAX (entropy only_63210 2)), s')
          ∧ ports s'
            = <["addon_x" := randint PORT_MIN PORT_MAX (entropy only_63210 2)]>
                (ports empty_ingress).
Proof.
  split; [vm_compute; reflexivity|].
  apply (get_dynamic_port_returns (DT:=ZTime) (SD:=FlatData) only_63210
           "addon_x" empty_ingress 2 4).
  - vm_compute; reflexivity.
  - intros m Hm. right. destruct m as [|[|m]]; [vm_compute; reflexivity..|lia].
  - vm_compute; reflexivity.
  - vm_compute; reflexivity.
  - lia.
Defined.

(** A live session validated twice. *)
Lemma validate_session_twice_witness :
  fst (validate (NOW + 300) "c" (snd (validate NOW "c" sample_ingress))) = Ok true
  ∧ sessions (snd (validate (NOW + 300) "c" (snd (validate NOW "c" sample_ingress))))
      !! "c"
    = Some (1700000600 + 900 + 900).
Proof.
  apply (validate_session_twice (DT:=ZTime) (SD:=FlatData) NOW (NOW + 300) "c"
           sample_ingress 1700000600 1700000600 (1700000600 + 900));
    vm_compute; reflexivity.
Defined.

Lemma load_reload_in_memory_witness :
  is_ok (fst (cleanup NOW sample_ingress)) = true
  ∧ tokens (snd (reload (DT:=ZTime) (SD:=FlatData) NOW sample_addons sample_ingress))
    = tokens (snd (_update_token_list (DT:=ZTime) (SD:=FlatData)
                     sample_addons sample_ingress)).
Proof.
  assert (Hok : is_ok (fst (cleanup NOW sample_ingress)) = true)
    by (vm_compute; reflexivity).
  split; [exact Hok|].
  apply (load_reload_in_memory (DT:=ZTime) (SD:=FlatData) NOW sample_addons
           sample_ingress). exact Hok.
Defined.

(** Two calls in a row on [sample_ingress], where [addon_y] holds 62001:
    the first returns that port, the second allocates 63210 for
    [addon_x]. *)
Lemma get_dynamic_port_distinct_witness :
  ∃ s2,
    get_port saturated 0 "addon_y" sample_ingress = Some (Ok 62001, sample_ingress)
    ∧ get_port only_63210 4 "addon_x" sample_ingress = Some (Ok 63210, s2)
    ∧ 62001 ≠ 63210
    ∧ ports s2 !! "addon_y" = Some 62001.
Proof.
  assert (H1 : get_port saturated 0 "addon_y" sample_ingress
               = Some (Ok 62001, sample_ingress)).
  { unfold get_dynamic_port.
    assert (ports sample_ingress !! "addon_y" = Some 62001) as ->
      by (vm_compute; reflexivity).
    reflexivity. }
  assert (Hfst : fst <$> get_port only_63210 4 "addon_x" sample_ingress
                 = Some (Ok 63210)) by (vm_compute; reflexivity).
  destruct (get_port only_63210 4 "addon_x" sample_ingress) as [[r s2]|] eqn:H2;
    [|discriminate Hfst].
  cbn [fmap option_fmap option_map fst] in Hfst. injection Hfst as ->.
  assert (Hok : ports_ok (ports sample_ingress)).
  { change (ports sample_ingress) with ({["addon_y" := 62001]} : gmap string Z).
    split.
    - intros a b q [<- _]%lookup_singleton_Some [<- _]%lookup_singleton_Some.
      reflexivity.
    - intros a q [_ <-]%lookup_singleton_Some. unfold PORT_MIN, PORT_MAX. lia. }
  assert (Hne : "addon_y" ≠ "addon_x") by discriminate.
  destruct (get_dynamic_port_distinct (DT:=ZTime) (SD:=FlatData) saturated
              only_63210 0 4 "addon_y" "addon_x" sample_ingress 62001
              sample_ingress 63210 s2 Hok Hne H1 H2) as (Hd & Hy & _).
  exists s2. split; [exact H1|]. split; [reflexivity|]. split; [exact Hd|exact Hy].
Defined.

End IngressMoreInstances.

Section PluginManagerMoreInstances.
Import PluginManager.

(** With every plugin healthy and up to date, [load] is five load calls. *)
Lemma load_quiet_witness :
  trace (PluginManager.load healthy)
  = [CallLoad Cli; CallLoad Dns; CallLoad Audio; CallLoad Observer;
     CallLoad Multicast].
Proof.
  apply (load_quiet healthy); [reflexivity|].
  right. reflexivity.
Defined.

(** The reports of [load] when the load of the audio plugin raises, the
    update of cli fails with a [HassioError] and the update of dns with a
    [ValueError]. *)
Example load_reports_scenario :
  issues (trace (PluginManager.load updates_fail))
  = [mkIssue FATAL_ERROR PLUGIN "audio" [EXECUTE_REPAIR];
     mkIssue UPDATE_FAILED PLUGIN "cli" [EXECUTE_UPDATE]]
  ∧ captured (trace (PluginManager.load updates_fail))
    = [mkExc Exception_ "audio"; mkExc ValueError_ "dns"]
  ∧ update_calls (trace (PluginManager.load updates_fail))
    = [Cli; Dns; Audio; Multicast].
Proof. repeat split; vm_compute; reflexivity. Qed.

End PluginManagerMoreInstances.
